(** * s3rmdir: batch deletion of object versions under a key prefix

    A shallow embedding of [s3rmdir.go] and the proofs of its
    batching, counting and scoping properties.

    - Go strings are byte sequences: [string] (a list of [ascii]).
    - Go's [int] is taken at 64 bits, its width on 64-bit platforms;
      arithmetic on it wraps ([wrapInt]). [uint] is the unsigned type of
      the same width.
    - The process state is one record; the main goroutine, the delete
      workers and the aggregating goroutine are interleaved by a step
      relation. *)

From Stdlib Require Import Strings.String Strings.Ascii DecimalString.
From Stdlib Require Import ZArith List Lia Bool Permutation.
Import ListNotations.

Local Open Scope string_scope.
Local Open Scope list_scope.
Local Open Scope Z_scope.

Set Implicit Arguments.

(** ** Machine integers *)

Definition intBits : Z := 64.
Definition MaxInt : Z := 2 ^ (intBits - 1) - 1.
Definition MinInt : Z := - 2 ^ (intBits - 1).

(** Two's complement wrap-around of a signed [int]. *)
Definition wrapInt (z : Z) : Z :=
  (z + 2 ^ (intBits - 1)) mod 2 ^ intBits - 2 ^ (intBits - 1).

(** [len] of a slice. *)
Definition len {A : Type} (l : list A) : Z := Z.of_nat (List.length l).

(** ** The [strings] functions the program calls *)

Module strings.

(** [strings.HasPrefix(s, prefix)]. *)
Definition HasPrefix (s prefix : string) : bool := String.prefix prefix s.

Fixpoint trimLeftByte (s : string) (c : ascii) : string :=
  match s with
  | String a s' => if Ascii.eqb a c then trimLeftByte s' c else s
  | EmptyString => EmptyString
  end.

Fixpoint trimRightByte (s : string) (c : ascii) : string :=
  match s with
  | EmptyString => EmptyString
  | String a s' =>
      match trimRightByte s' c with
      | EmptyString => if Ascii.eqb a c then EmptyString else String a EmptyString
      | t => String a t
      end
  end.

(** [strings.Trim(s, cutset)] for a cutset of one ASCII byte, the only
    way the program calls it: Go trims the right end, then the left. *)
Definition TrimByte (s : string) (c : ascii) : string :=
  trimLeftByte (trimRightByte s c) c.

End strings.

(** [fmt.Sprintf("%d", z)]. *)
Definition fmtInt (z : Z) : string := NilZero.string_of_int (Z.to_int z).

(** ** Data *)

Record objectVersion : Type := { Key : string; VersionId : string }.

Record deleteBatchResult : Type := { BatchSize : Z; ErrorCount : Z }.

(** The parts of the S3 SDK types the program reads or writes. *)
Module types.
Record ObjectIdentifier : Type := { Key : string; VersionId : string }.
Record Delete : Type := { Objects : list ObjectIdentifier; Quiet : bool }.
(** A per-item failure of a delete request. *)
Record Error : Type := { ErrKey : string; ErrVersionId : string; Code : string }.
End types.

Module s3.
Record DeleteObjectsInput : Type :=
  { Bucket : string; Delete : types.Delete }.
Record DeleteObjectsOutput : Type := { Errors : list types.Error }.
Record ListObjectVersionsInput : Type :=
  { ListBucket : string; Prefix : string }.
(** One page of a listing. Versions and delete markers both carry a key
    and a version id, which is all the program reads of them; the listing
    always sets both, so the dereferences [*v.Key] and [*v.VersionId] are
    plain reads. *)
Record ListObjectVersionsOutput : Type :=
  { Versions : list objectVersion; DeleteMarkers : list objectVersion }.
End s3.

(** An error value returned by the SDK. *)
Definition sdkError : Type := string.

(** The ways the process ends early: every [log.Fatal]/[log.Fatalf] of the
    source, and the usage exit. *)
Inductive fatal : Type :=
| UsageExit
| IllegalBatchSize
| UnableToLoadConfig (err : sdkError)
| FailedToList (err : sdkError)
| WithoutRequestedPrefix (key : string)
| FailedToDelete (err : sdkError).

(** ** Flags and set-up (the head of [main]) *)

Record flags : Type :=
  { fPrefix : string; fBucket : string; fBatchSize : Z; fRegion : string }.

Definition defaultFlags : flags :=
  {| fPrefix := ""; fBucket := ""; fBatchSize := 1000; fRegion := "eu-west-1" |}.

Record settings : Type :=
  { prefix : string; bucket : string; batchSize : Z; region : string }.

Definition slash : ascii := "/"%char.

(** [prefix := strings.Trim( *fPrefix, "/"); if prefix != "" { prefix += "/" }] *)
Definition normalizePrefix (p : string) : string :=
  let prefix := strings.TrimByte p slash in
  if String.eqb prefix "" then prefix else String.append prefix "/".

(** The head of [main] up to the loaded SDK configuration; [loaded] is what
    [config.LoadDefaultConfig] returns ([None]: no error). *)
Definition setup (f : flags) (loaded : option sdkError) : fatal + settings :=
  let prefix := normalizePrefix (fPrefix f) in
  if String.eqb (fBucket f) "" then inl UsageExit
  else if fBatchSize f >? MaxInt then inl IllegalBatchSize
  else
    let batchSize := wrapInt (fBatchSize f) in
    match loaded with
    | Some err => inl (UnableToLoadConfig err)
    | None =>
        inr {| prefix := prefix; bucket := fBucket f;
               batchSize := batchSize; region := fRegion f |}
    end.

Definition listObjectVersionsParams (c : settings) : s3.ListObjectVersionsInput :=
  {| s3.ListBucket := bucket c; s3.Prefix := prefix c |}.

(** ** Goroutines started by [go deleteObjectVersions(...)]

    The code of a goroutine is the rest of what it has to run: the calls
    that touch anything outside its own locals, each with its continuation. *)

Inductive goroutine : Type :=
| Return
| DeleteObjects (params : s3.DeleteObjectsInput)
                (k : sdkError + s3.DeleteObjectsOutput -> goroutine)
| ChanSend (r : deleteBatchResult) (k : goroutine)
| LogFatalf (f : fatal).

Definition ObjectIdentifierOf (v : objectVersion) : types.ObjectIdentifier :=
  {| types.Key := Key v; types.VersionId := VersionId v |}.

(** The [for _, v := range objectVersions] loop that fills
    [deleteParam.Objects] by appending. *)
Definition appendObjects (d : types.Delete) (objectVersions : list objectVersion)
  : types.Delete :=
  fold_left
    (fun d v => {| types.Objects := types.Objects d ++ [ObjectIdentifierOf v];
                   types.Quiet := types.Quiet d |})
    objectVersions d.

Definition deleteObjectVersions (bucket : string)
           (objectVersions : list objectVersion) : goroutine :=
  let deleteParam := {| types.Objects := []; types.Quiet := true |} in
  let deleteParam := appendObjects deleteParam objectVersions in
  let params := {| s3.Bucket := bucket; s3.Delete := deleteParam |} in
  DeleteObjects params (fun res =>
    match res with
    | inl err => LogFatalf (FailedToDelete err)
    | inr result =>
        ChanSend {| BatchSize := len objectVersions;
                    ErrorCount := len (s3.Errors result) |} Return
    end).

(** A started goroutine: the slice it was given, and what it has left to run. *)
Record task : Type := { objectVersions : list objectVersion; code : goroutine }.

(** ** The process *)

Definition listing : Type := list (sdkError + s3.ListObjectVersionsOutput).

(** Where the main goroutine stands. *)
Inductive mainPc : Type :=
| AtLoopHead (rest : listing)
| InPage (entries : list objectVersion) (rest : listing)
| AtFlush
| AtWait
| AtPrint.

(** The goroutine of [for r := range results]: about to receive, or about
    to call [waitGroup.Done()] for the result it has just counted. *)
Inductive aggregatorPc : Type := AggReceive | AggDone.

Inductive exitStatus : Type :=
| ExitOk
| ExitFatal (f : fatal)
| ExitPanic.

(** [requests] and [received] are not variables of the program: they log, in
    order, the calls the storage service has answered (with the index of
    the calling goroutine) and the results the aggregator has taken from
    the channel. *)
Record process : Type := mkProcess
  { pc : mainPc;
    batch : list objectVersion;
    numObjects : Z;
    waitGroup : Z;
    goroutines : list task;
    results : list deleteBatchResult;
    numProcessed : Z;
    numErrors : Z;
    aggregator : aggregatorPc;
    stdout : list string;
    requests : list (nat * s3.DeleteObjectsInput
                     * (sdkError + s3.DeleteObjectsOutput));
    received : list deleteBatchResult;
    exited : option exitStatus }.

(** Capacity of the [results] channel: [make(chan deleteBatchResult, 1000)]. *)
Definition resultsCap : Z := 1000.

(** The process as the listing loop is entered, on the listing [l]: the
    outcomes of the successive [NextPage] calls. The allocation
    [make([]objectVersion, 0, batchSize)] is taken to succeed, and the
    counter of the [sync.WaitGroup] is an unbounded integer. *)
Definition start (l : listing) : process :=
  {| pc := AtLoopHead l; batch := []; numObjects := 0; waitGroup := 0;
     goroutines := []; results := []; numProcessed := 0; numErrors := 0;
     aggregator := AggReceive; stdout := []; requests := []; received := [];
     exited := None |}.

Definition setPc (x : mainPc) (p : process) : process :=
  mkProcess x (batch p) (numObjects p) (waitGroup p) (goroutines p) (results p)
            (numProcessed p) (numErrors p) (aggregator p) (stdout p)
            (requests p) (received p) (exited p).

Definition setBatch (x : list objectVersion) (p : process) : process :=
  mkProcess (pc p) x (numObjects p) (waitGroup p) (goroutines p) (results p)
            (numProcessed p) (numErrors p) (aggregator p) (stdout p)
            (requests p) (received p) (exited p).

Definition setNumObjects (x : Z) (p : process) : process :=
  mkProcess (pc p) (batch p) x (waitGroup p) (goroutines p) (results p)
            (numProcessed p) (numErrors p) (aggregator p) (stdout p)
            (requests p) (received p) (exited p).

Definition setWaitGroup (x : Z) (p : process) : process :=
  mkProcess (pc p) (batch p) (numObjects p) x (goroutines p) (results p)
            (numProcessed p) (numErrors p) (aggregator p) (stdout p)
            (requests p) (received p) (exited p).

Definition setGoroutines (x : list task) (p : process) : process :=
  mkProcess (pc p) (batch p) (numObjects p) (waitGroup p) x (results p)
            (numProcessed p) (numErrors p) (aggregator p) (stdout p)
            (requests p) (received p) (exited p).

Definition setResults (x : list deleteBatchResult) (p : process) : process :=
  mkProcess (pc p) (batch p) (numObjects p) (waitGroup p) (goroutines p) x
            (numProcessed p) (numErrors p) (aggregator p) (stdout p)
            (requests p) (received p) (exited p).

Definition setTotals (np ne : Z) (a : aggregatorPc) (p : process) : process :=
  mkProcess (pc p) (batch p) (numObjects p) (waitGroup p) (goroutines p)
            (results p) np ne a (stdout p) (requests p) (received p) (exited p).

Definition printf (line : string) (p : process) : process :=
  mkProcess (pc p) (batch p) (numObjects p) (waitGroup p) (goroutines p)
            (results p) (numProcessed p) (numErrors p) (aggregator p)
            (stdout p ++ [line]) (requests p) (received p) (exited p).

Definition logRequest (i : nat) (params : s3.DeleteObjectsInput)
           (res : sdkError + s3.DeleteObjectsOutput) (p : process) : process :=
  mkProcess (pc p) (batch p) (numObjects p) (waitGroup p) (goroutines p)
            (results p) (numProcessed p) (numErrors p) (aggregator p)
            (stdout p) (requests p ++ [(i, params, res)]) (received p) (exited p).

Definition logReceived (r : deleteBatchResult) (p : process) : process :=
  mkProcess (pc p) (batch p) (numObjects p) (waitGroup p) (goroutines p)
            (results p) (numProcessed p) (numErrors p) (aggregator p)
            (stdout p) (requests p) (received p ++ [r]) (exited p).

Definition exit (st : exitStatus) (p : process) : process :=
  mkProcess (pc p) (batch p) (numObjects p) (waitGroup p) (goroutines p)
            (results p) (numProcessed p) (numErrors p) (aggregator p)
            (stdout p) (requests p) (received p) (Some st).

(** [waitGroup.Add(1); go deleteObjectVersions(results, s3Client, *fBucket, batch)] *)
Definition dispatch (c : settings) (p : process) : process :=
  let p := setWaitGroup (waitGroup p + 1) p in
  setGoroutines
    (goroutines p ++ [{| objectVersions := batch p;
                         code := deleteObjectVersions (bucket c) (batch p) |}]) p.

(** The closure [deleteVersion] of [main]. *)
Definition deleteVersion (c : settings) (key versionId : string) (p : process)
  : process :=
  if negb (String.eqb (prefix c) "") && negb (strings.HasPrefix key (prefix c))
  then exit (ExitFatal (WithoutRequestedPrefix key)) p
  else
    let p := setBatch (batch p ++ [{| Key := key; VersionId := versionId |}]) p in
    let p := setNumObjects (wrapInt (numObjects p + 1)) p in
    if len (batch p) =? batchSize c
    then setBatch [] (dispatch c p)
    else p.

(** The entries of a page in the order of the two [range] loops. *)
Definition pageEntries (page : s3.ListObjectVersionsOutput) : list objectVersion :=
  s3.Versions page ++ s3.DeleteMarkers page.

(** [if len(batch) > 0 { waitGroup.Add(1); go deleteObjectVersions(...) }] *)
Definition flush (c : settings) (p : process) : process :=
  if len (batch p) >? 0 then dispatch c p else p.

Definition totalLine (n : Z) : string :=
  String.append "total number of objects: " (fmtInt n).

Definition progressLine (np ne : Z) : string :=
  String.append (fmtInt np)
    (String.append " objects deleted, "
       (String.append (fmtInt ne) (String.append " errors" (String "010" "")))).

(** One step of the main goroutine; [None] when it is blocked in
    [waitGroup.Wait()]. *)
Definition mainStep (c : settings) (p : process) : option process :=
  match pc p with
  | AtLoopHead [] => Some (setPc AtFlush p)
  | AtLoopHead (inl err :: _) => Some (exit (ExitFatal (FailedToList err)) p)
  | AtLoopHead (inr page :: rest) => Some (setPc (InPage (pageEntries page) rest) p)
  | InPage [] rest => Some (setPc (AtLoopHead rest) p)
  | InPage (v :: vs) rest =>
      Some (deleteVersion c (Key v) (VersionId v) (setPc (InPage vs rest) p))
  | AtFlush => Some (setPc AtWait (flush c p))
  | AtWait => if waitGroup p =? 0 then Some (setPc AtPrint p) else None
  | AtPrint => Some (exit ExitOk (printf (totalLine (numObjects p)) p))
  end.

Fixpoint setNth {A : Type} (i : nat) (x : A) (l : list A) : list A :=
  match l, i with
  | [], _ => []
  | _ :: l', O => x :: l'
  | y :: l', S i' => y :: setNth i' x l'
  end.

Definition setCode (i : nat) (t : task) (g : goroutine) (p : process) : process :=
  setGoroutines
    (setNth i {| objectVersions := objectVersions t; code := g |} (goroutines p)) p.

(** One step of the [i]-th started goroutine; [res] is what the storage
    service answers if the step is the [DeleteObjects] call. [None] when the
    goroutine has returned, or is blocked sending on a full channel. *)
Definition workerStep (i : nat) (res : sdkError + s3.DeleteObjectsOutput)
           (p : process) : option process :=
  match nth_error (goroutines p) i with
  | None => None
  | Some t =>
      match code t with
      | Return => None
      | DeleteObjects params k =>
          Some (setCode i t (k res) (logRequest i params res p))
      | ChanSend r k =>
          if len (results p) <? resultsCap
          then Some (setCode i t k (setResults (results p ++ [r]) p))
          else None
      | LogFatalf f => Some (exit (ExitFatal f) p)
      end
  end.

(** One step of the aggregating goroutine; [None] when it is blocked
    receiving from the empty channel. [Done] on a counter at zero panics. *)
Definition aggregatorStep (p : process) : option process :=
  match aggregator p with
  | AggReceive =>
      match results p with
      | [] => None
      | r :: rest =>
          let np := wrapInt (numProcessed p + BatchSize r) in
          let ne := wrapInt (numErrors p + ErrorCount r) in
          Some (printf (progressLine np ne)
                  (setTotals np ne AggDone (logReceived r (setResults rest p))))
      end
  | AggDone =>
      if waitGroup p - 1 <? 0 then Some (exit ExitPanic p)
      else Some (setTotals (numProcessed p) (numErrors p) AggReceive
                   (setWaitGroup (waitGroup p - 1) p))
  end.

(** ** Schedules *)

Inductive event : Type :=
| Main
| Worker (i : nat) (res : sdkError + s3.DeleteObjectsOutput)
| Aggregator.

(** Nothing runs once the process has exited. *)
Definition exec (c : settings) (e : event) (p : process) : option process :=
  match exited p with
  | Some _ => None
  | None =>
      match e with
      | Main => mainStep c p
      | Worker i res => workerStep i res p
      | Aggregator => aggregatorStep p
      end
  end.

Fixpoint execAll (c : settings) (es : list event) (p : process) : option process :=
  match es with
  | [] => Some p
  | e :: es' =>
      match exec c e p with
      | None => None
      | Some p' => execAll c es' p'
      end
  end.

(** [reaches c l p]: some schedule takes the process started on the
    listing [l] to [p]. *)
Definition reaches (c : settings) (l : listing) (p : process) : Prop :=
  exists es, execAll c es (start l) = Some p.

(** The batches handed to goroutines so far, in the order of the [go]
    statements. *)
Definition dispatched (p : process) : list (list objectVersion) :=
  map objectVersions (goroutines p).

(** Every entry of the pages of a listing, in listing order. *)
Fixpoint allEntries (l : listing) : list objectVersion :=
  match l with
  | [] => []
  | inl _ :: rest => allEntries rest
  | inr page :: rest => pageEntries page ++ allEntries rest
  end.

(** ** The steps, case by case *)

Definition inScope (c : settings) (key : string) : bool :=
  negb (negb (String.eqb (prefix c) "") && negb (strings.HasPrefix key (prefix c))).

(** The locals of [main] after the append and the increment of
    [deleteVersion]. *)
Definition appended (v : objectVersion) (p : process) : process :=
  setNumObjects (wrapInt (numObjects p + 1)) (setBatch (batch p ++ [v]) p).

Inductive step (c : settings) : event -> process -> process -> Prop :=
| step_no_more_pages p :
    pc p = AtLoopHead [] ->
    step c Main p (setPc AtFlush p)
| step_list_failed p err rest :
    pc p = AtLoopHead (inl err :: rest) ->
    step c Main p (exit (ExitFatal (FailedToList err)) p)
| step_next_page p page rest :
    pc p = AtLoopHead (inr page :: rest) ->
    step c Main p (setPc (InPage (pageEntries page) rest) p)
| step_page_done p rest :
    pc p = InPage [] rest ->
    step c Main p (setPc (AtLoopHead rest) p)
| step_out_of_scope p v vs rest :
    pc p = InPage (v :: vs) rest ->
    inScope c (Key v) = false ->
    step c Main p
         (exit (ExitFatal (WithoutRequestedPrefix (Key v)))
               (setPc (InPage vs rest) p))
| step_append p v vs rest :
    pc p = InPage (v :: vs) rest ->
    inScope c (Key v) = true ->
    len (batch p ++ [v]) <> batchSize c ->
    step c Main p (appended v (setPc (InPage vs rest) p))
| step_seal p v vs rest :
    pc p = InPage (v :: vs) rest ->
    inScope c (Key v) = true ->
    len (batch p ++ [v]) = batchSize c ->
    step c Main p
         (setBatch [] (dispatch c (appended v (setPc (InPage vs rest) p))))
| step_flush_some p :
    pc p = AtFlush ->
    len (batch p) > 0 ->
    step c Main p (setPc AtWait (dispatch c p))
| step_flush_none p :
    pc p = AtFlush ->
    batch p = [] ->
    step c Main p (setPc AtWait p)
| step_wait p :
    pc p = AtWait ->
    waitGroup p = 0 ->
    step c Main p (setPc AtPrint p)
| step_print p :
    pc p = AtPrint ->
    step c Main p (exit ExitOk (printf (totalLine (numObjects p)) p))
| step_request p i t params k res :
    nth_error (goroutines p) i = Some t ->
    code t = DeleteObjects params k ->
    step c (Worker i res) p (setCode i t (k res) (logRequest i params res p))
| step_send p i t r k res :
    nth_error (goroutines p) i = Some t ->
    code t = ChanSend r k ->
    len (results p) < resultsCap ->
    step c (Worker i res) p (setCode i t k (setResults (results p ++ [r]) p))
| step_worker_fatal p i t f res :
    nth_error (goroutines p) i = Some t ->
    code t = LogFatalf f ->
    step c (Worker i res) p (exit (ExitFatal f) p)
| step_receive p r rest :
    aggregator p = AggReceive ->
    results p = r :: rest ->
    step c Aggregator p
         (printf (progressLine (wrapInt (numProcessed p + BatchSize r))
                               (wrapInt (numErrors p + ErrorCount r)))
                 (setTotals (wrapInt (numProcessed p + BatchSize r))
                            (wrapInt (numErrors p + ErrorCount r))
                            AggDone (logReceived r (setResults rest p))))
| step_done p :
    aggregator p = AggDone ->
    waitGroup p >= 1 ->
    step c Aggregator p
         (setTotals (numProcessed p) (numErrors p) AggReceive
                    (setWaitGroup (waitGroup p - 1) p))
| step_done_panic p :
    aggregator p = AggDone ->
    waitGroup p < 1 ->
    step c Aggregator p (exit ExitPanic p).

(** ** What the accumulator has done so far *)

(** The entries the main goroutine has still to read. *)
Definition remaining (x : mainPc) : list objectVersion :=
  match x with
  | AtLoopHead rest => allEntries rest
  | InPage entries rest => entries ++ allEntries rest
  | _ => []
  end.

Definition flushed (x : mainPc) : bool :=
  match x with
  | AtWait | AtPrint => true
  | _ => false
  end.

(** The batch handed over by the final flush, if any: [batch] is not reset
    after it. *)
Definition finalBatch (p : process) : list (list objectVersion) :=
  if flushed (pc p)
  then match batch p with [] => [] | _ :: _ => [batch p] end
  else [].

(** The invariant of the accumulator, with [sealed] the batches that were
    dispatched from inside [deleteVersion]. *)
Record accInv (c : settings) (l : listing) (p : process)
       (sealed : list (list objectVersion)) : Prop :=
  { acc_dispatched : dispatched p = sealed ++ finalBatch p;
    acc_sealed : Forall (fun b => len b = batchSize c) sealed;
    acc_entries : List.concat sealed ++ batch p ++ remaining (pc p) = allEntries l;
    acc_open : 1 <= batchSize c -> len (batch p) < batchSize c;
    acc_zero : batchSize c <= 0 -> sealed = [];
    acc_count : numObjects p = wrapInt (len (List.concat sealed ++ batch p)) }.

(** ** What the workers and the aggregator have done so far *)

Definition sumZ {A : Type} (f : A -> Z) (l : list A) : Z :=
  fold_right (fun x acc => f x + acc) 0 l.

(** 1 for a goroutine that has not returned yet. *)
Definition busy (t : task) : Z :=
  match code t with Return => 0 | _ => 1 end.

(** Entries of a batch the aggregator has not been sent yet. *)
Definition pendingSize (t : task) : Z :=
  match code t with Return => 0 | _ => len (objectVersions t) end.

(** Per-item errors a goroutine holds in the result it is about to send. *)
Definition pendingErrors (t : task) : Z :=
  match code t with ChanSend r _ => ErrorCount r | _ => 0 end.

(** Per-item errors reported by the storage service in one answer. *)
Definition itemErrors (q : nat * s3.DeleteObjectsInput
                          * (sdkError + s3.DeleteObjectsOutput)) : Z :=
  match snd q with
  | inl _ => 0
  | inr result => len (s3.Errors result)
  end.

Definition aggPending (p : process) : Z :=
  match aggregator p with AggReceive => 0 | AggDone => 1 end.

(** The four places a started goroutine can be at. *)
Inductive taskShape (b : string) (t : task) : Prop :=
| shape_calling :
    code t = deleteObjectVersions b (objectVersions t) -> taskShape b t
| shape_sending e :
    code t = ChanSend {| BatchSize := len (objectVersions t); ErrorCount := e |}
                      Return ->
    taskShape b t
| shape_failing err :
    code t = LogFatalf (FailedToDelete err) -> taskShape b t
| shape_returned :
    code t = Return -> taskShape b t.

Record countInv (c : settings) (p : process) : Prop :=
  { cnt_shape : Forall (taskShape (bucket c)) (goroutines p);
    cnt_wait :
      waitGroup p = sumZ busy (goroutines p) + len (results p) + aggPending p;
    cnt_sizes :
      sumZ BatchSize (received p) + sumZ BatchSize (results p)
      + sumZ pendingSize (goroutines p)
      = sumZ (fun t => len (objectVersions t)) (goroutines p);
    cnt_errors :
      sumZ ErrorCount (received p) + sumZ ErrorCount (results p)
      + sumZ pendingErrors (goroutines p)
      = sumZ itemErrors (requests p);
    cnt_processed : numProcessed p = wrapInt (sumZ BatchSize (received p));
    cnt_numErrors : numErrors p = wrapInt (sumZ ErrorCount (received p));
    cnt_printing : pc p = AtPrint -> waitGroup p = 0 }.

(** ** What the storage service has been asked so far *)

Definition request : Type :=
  (nat * s3.DeleteObjectsInput * (sdkError + s3.DeleteObjectsOutput))%type.

Definition reqIndex (q : request) : nat := fst (fst q).
Definition reqParams (q : request) : s3.DeleteObjectsInput := snd (fst q).
Definition reqAnswer (q : request) : sdkError + s3.DeleteObjectsOutput := snd q.

(** The request that names every (key, version id) pair of a batch, with
    reporting of the successful deletions switched off. *)
Definition deleteParams (b : string) (ovs : list objectVersion)
  : s3.DeleteObjectsInput :=
  {| s3.Bucket := b;
     s3.Delete := {| types.Objects := map ObjectIdentifierOf ovs;
                     types.Quiet := true |} |}.

(** The result a goroutine sends for its batch and the answer it got. *)
Definition resultFor (ovs : list objectVersion) (result : s3.DeleteObjectsOutput)
  : deleteBatchResult :=
  {| BatchSize := len ovs; ErrorCount := len (s3.Errors result) |}.

(** Where the goroutine that received an answer can be. *)
Definition answeredShape (t : task) (res : sdkError + s3.DeleteObjectsOutput)
  : Prop :=
  match res with
  | inl err => code t = LogFatalf (FailedToDelete err)
  | inr result =>
      code t = ChanSend (resultFor (objectVersions t) result) Return
      \/ code t = Return
  end.

Definition called (t : task) : bool :=
  match code t with DeleteObjects _ _ => false | _ => true end.

Record reqInv (c : settings) (p : process) : Prop :=
  { req_once : NoDup (map reqIndex (requests p));
    req_task : forall q, In q (requests p) ->
      exists t, nth_error (goroutines p) (reqIndex q) = Some t /\
                reqParams q = deleteParams (bucket c) (objectVersions t) /\
                answeredShape t (reqAnswer q);
    req_called : forall i t, nth_error (goroutines p) i = Some t ->
      called t = true -> In i (map reqIndex (requests p)) }.

(** The result a goroutine is about to send. *)
Definition sending (t : task) : list deleteBatchResult :=
  match code t with ChanSend r _ => [r] | _ => [] end.

(** The result that an answered request gives rise to. *)
Definition answered (q : request) : list deleteBatchResult :=
  match reqAnswer q with
  | inl _ => []
  | inr result =>
      [{| BatchSize := len (types.Objects (s3.Delete (reqParams q)));
          ErrorCount := len (s3.Errors result) |}]
  end.

(** Every result on its way: taken by the aggregator, in the channel, or
    held by a goroutine about to send. *)
Definition onTheWay (p : process) : list deleteBatchResult :=
  received p ++ results p ++ flat_map sending (goroutines p).

(** The pages the main goroutine has still to fetch. *)
Definition pagesAhead (x : mainPc) : listing :=
  match x with
  | AtLoopHead rest => rest
  | InPage _ rest => rest
  | _ => []
  end.

(** ** The batching property *)

Definition ceilDiv (n c : Z) : Z := (n + c - 1) / c.

(** What is said of the batches dispatched over a whole listing of [N]
    entries at capacity [C]: there are [ceilDiv N C] of them, every one but
    the last has [C] entries, the last has [N mod C] entries, or [C] when
    that is zero, and none is empty. *)
Definition batchingClaim (c : settings) (l : listing) (p : process) : Prop :=
  let N := len (allEntries l) in
  let C := batchSize c in
  len (dispatched p) = ceilDiv N C /\
  (forall i b, nth_error (dispatched p) i = Some b ->
               Z.of_nat (S i) < len (dispatched p) -> len b = C) /\
  (forall init b, dispatched p = init ++ [b] ->
                  len b = if N mod C =? 0 then C else N mod C) /\
  Forall (fun b => b <> []) (dispatched p).

(** ** A goroutine on its own *)

(** What a goroutine does to the rest of the world. *)
Inductive action : Type :=
| Requested (params : s3.DeleteObjectsInput)
| Delivered (r : deleteBatchResult)
| Aborted (f : fatal).

(** The actions of a goroutine run to its end, when its [n]-th call to the
    storage service is answered by [answers n]. *)
Fixpoint runGoroutine (g : goroutine)
         (answers : nat -> sdkError + s3.DeleteObjectsOutput) (n : nat)
  : list action :=
  match g with
  | Return => []
  | DeleteObjects params k =>
      Requested params :: runGoroutine (k (answers n)) answers (S n)
  | ChanSend r k => Delivered r :: runGoroutine k answers n
  | LogFatalf f => [Aborted f]
  end.

(** ** A listing without entries *)

(** Every page is fetched without error and holds no version and no delete
    marker. *)
Definition noEntries (l : listing) : Prop :=
  Forall (fun r => exists page, r = inr page /\ pageEntries page = []) l.

Definition pcNoEntries (x : mainPc) : Prop :=
  match x with
  | AtLoopHead rest => noEntries rest
  | InPage entries rest => entries = [] /\ noEntries rest
  | _ => True
  end.

Record emptyInv (p : process) : Prop :=
  { emp_goroutines : goroutines p = [];
    emp_results : results p = [];
    emp_aggregator : aggregator p = AggReceive;
    emp_waitGroup : waitGroup p = 0;
    emp_numObjects : numObjects p = 0;
    emp_batch : batch p = [];
    emp_requests : requests p = [];
    emp_out :
      match exited p with
      | None => stdout p = [] /\ pcNoEntries (pc p)
      | Some st => st = ExitOk /\ stdout p = [totalLine 0]
      end }.

(** The number of steps the main goroutine has left. *)
Definition stepsLeft (p : process) : nat :=
  match exited p with
  | Some _ => 0
  | None =>
      match pc p with
      | AtLoopHead rest => 2 * length rest + 4
      | InPage _ rest => 2 * length rest + 5
      | AtFlush => 3
      | AtWait => 2
      | AtPrint => 1
      end
  end.

(** ** Trimming, as it is described *)

(** The string of [n] slashes. *)
Fixpoint slashes (n : nat) : string :=
  match n with
  | O => EmptyString
  | S n' => String slash (slashes n')
  end.

Definition headIs (c : ascii) (s : string) : bool :=
  match s with
  | EmptyString => false
  | String a _ => Ascii.eqb a c
  end.

Fixpoint lastIs (c : ascii) (s : string) : bool :=
  match s with
  | EmptyString => false
  | String a EmptyString => Ascii.eqb a c
  | String _ s' => lastIs c s'
  end.

Fixpoint onlySlashes (s : string) : bool :=
  match s with
  | EmptyString => true
  | String a s' => Ascii.eqb a slash && onlySlashes s'
  end.

(** [core] is [s] with all its leading and all its trailing slashes taken
    off. *)
Definition trimmedOf (s core : string) : Prop :=
  exists a b,
    s = String.append (slashes a) (String.append core (slashes b)) /\
    headIs slash core = false /\ lastIs slash core = false.

(** The prefix as it is described: the trimmed value, with one slash after
    it unless it is empty. *)
Definition describedPrefix (core : string) : string :=
  if String.eqb core "" then "" else String.append core "/".

(** ** Concrete runs *)

Definition answerOk : sdkError + s3.DeleteObjectsOutput :=
  inr {| s3.Errors := [] |}.

Definition finalOf (c : settings) (es : list event) (l : listing) : process :=
  match execAll c es (start l) with
  | Some p => p
  | None => start l
  end.

(** Prefix ["logs/"], batches of 2, one page of three versions. *)
Definition logsFlags : flags :=
  {| fPrefix := "/logs/"; fBucket := "bkt"; fBatchSize := 2;
     fRegion := "eu-west-1" |}.

Definition logsSettings : settings :=
  {| prefix := "logs/"; bucket := "bkt"; batchSize := 2; region := "eu-west-1" |}.

Definition logsListing : listing :=
  [inr {| s3.Versions := [ {| Key := "logs/a"; VersionId := "1" |};
                           {| Key := "logs/a"; VersionId := "2" |};
                           {| Key := "logs/b"; VersionId := "1" |} ];
          s3.DeleteMarkers := [] |}].

Definition logsSchedule : list event :=
  [Main; Main; Main; Main; Main; Main; Main;
   Worker 1 answerOk; Worker 0 answerOk; Worker 0 answerOk; Aggregator;
   Worker 1 answerOk; Aggregator; Aggregator; Aggregator; Main; Main].

Definition logsFinal : process := finalOf logsSettings logsSchedule logsListing.

(** [-batch 0], one page of one version. *)
Definition zeroFlags : flags :=
  {| fPrefix := ""; fBucket := "bkt"; fBatchSize := 0; fRegion := "eu-west-1" |}.

Definition zeroSettings : settings :=
  {| prefix := ""; bucket := "bkt"; batchSize := 0; region := "eu-west-1" |}.

Definition zeroListing : listing :=
  [inr {| s3.Versions := [ {| Key := "x"; VersionId := "1" |} ];
          s3.DeleteMarkers := [] |}].

Definition zeroSchedule : list event :=
  [Main; Main; Main; Main; Main; Worker 0 answerOk; Worker 0 answerOk;
   Aggregator; Aggregator; Main; Main].

Definition zeroFinal : process := finalOf zeroSettings zeroSchedule zeroListing.

(** The same listing, with one per-item failure reported for the first
    batch. *)
Definition answerOneError : sdkError + s3.DeleteObjectsOutput :=
  inr {| s3.Errors := [ {| types.ErrKey := "logs/a"; types.ErrVersionId := "2";
                           types.Code := "AccessDenied" |} ] |}.



(** A listing with an entry outside the requested prefix, and the state in
    which that entry is the next one. *)
Definition strayListing : listing :=
  [inr {| s3.Versions := [ {| Key := "logs/a"; VersionId := "1" |};
                           {| Key := "c/d"; VersionId := "7" |};
                           {| Key := "logs/b"; VersionId := "1" |} ];
          s3.DeleteMarkers := [] |}].

Definition strayState : process := finalOf logsSettings [Main; Main] strayListing.

(** ** Entries that may be deleted *)

(** An entry the listing produced and the scope check lets through. *)
Definition safeEntry (c : settings) (l : listing) (v : objectVersion) : Prop :=
  inScope c (Key v) = true /\ In v (allEntries l).

Record safeInv (c : settings) (l : listing) (p : process) : Prop :=
  { safe_dispatched : Forall (safeEntry c l) (List.concat (dispatched p));
    safe_batch : Forall (safeEntry c l) (batch p);
    safe_remaining : incl (remaining (pc p)) (allEntries l) }.

(** The entries of the current page that the main goroutine has still to
    feed to [deleteVersion]. *)
Definition inPage (x : mainPc) : list objectVersion :=
  match x with
  | InPage entries _ => entries
  | _ => []
  end.

(** Why a process may have ended, read off the exit status. *)
Definition exitCause (c : settings) (l : listing) (p : process)
           (st : exitStatus) : Prop :=
  match st with
  | ExitOk => flushed (pc p) = true /\ waitGroup p = 0
  | ExitPanic => False
  | ExitFatal (FailedToList err) => In (inl err) l
  | ExitFatal (WithoutRequestedPrefix key) =>
      prefix c <> ""%string /\ strings.HasPrefix key (prefix c) = false /\
      exists versionId, In {| Key := key; VersionId := versionId |} (allEntries l)
  | ExitFatal (FailedToDelete err) =>
      exists q, In q (requests p) /\ reqAnswer q = inl err
  | ExitFatal _ => False
  end.

(** ** What is printed *)





(** A listing whose second page fails, and the state in which the main
    goroutine is about to fetch that page. *)
Definition failPages : list s3.ListObjectVersionsOutput :=
  [ {| s3.Versions := [ {| Key := "logs/a"; VersionId := "1" |};
                        {| Key := "logs/a"; VersionId := "2" |};
                        {| Key := "logs/b"; VersionId := "1" |} ];
       s3.DeleteMarkers := [] |} ].

Definition failListing : listing :=
  map inr failPages ++ inl "RequestTimeout" :: [].

Definition failState : process :=
  finalOf logsSettings [Main; Main; Main; Main; Main] failListing.

(** The state after the step on the entry outside the prefix. *)
Definition strayExit : process :=
  finalOf logsSettings [Main; Main; Main] strayListing.

(** ** The wait group *)

(** 1 for a goroutine that has returned. *)
Definition returned (t : task) : Z :=
  match code t with Return => 1 | _ => 0 end.

Record waitInv (p : process) : Prop :=
  { wait_returned :
      sumZ returned (goroutines p) = len (received p) + len (results p);
    wait_pending : aggregator p = AggDone -> 1 <= len (received p) }.

(** ** How long a run can be *)

(** Steps a goroutine has left, counting two for the result it will put
    in the channel. *)
Definition workLeft (g : goroutine) : nat :=
  match g with
  | DeleteObjects _ _ => 4
  | ChanSend _ _ => 3
  | LogFatalf _ => 1
  | Return => 0
  end.

Fixpoint pagesCost (l : listing) : nat :=
  match l with
  | [] => 0
  | inl _ :: rest => 2 + pagesCost rest
  | inr page :: rest => 2 + 5 * length (pageEntries page) + pagesCost rest
  end.

Definition mainLeft (x : mainPc) : nat :=
  match x with
  | AtLoopHead rest => pagesCost rest + 7
  | InPage entries rest => 5 * length entries + 1 + pagesCost rest + 7
  | AtFlush => 6
  | AtWait => 1
  | AtPrint => 0
  end.

Definition workOf (gs : list task) : nat :=
  list_sum (map (fun t => workLeft (code t)) gs).

(** A bound on the number of steps a process can still take. *)
Definition potential (p : process) : nat :=
  match exited p with
  | Some _ => 0
  | None =>
      1 + mainLeft (pc p) + workOf (goroutines p) + 2 * length (results p)
      + match aggregator p with AggReceive => 0 | AggDone => 1 end
  end.

(** ** The listing and the requests, as they are described *)

(** Following the description of the listing: the entries come page by
    page, and within a page all the versions come first, then all the
    delete markers. *)
Fixpoint listedInOrder (pages : list s3.ListObjectVersionsOutput)
  : list objectVersion :=
  match pages with
  | [] => []
  | page :: rest =>
      s3.Versions page ++ s3.DeleteMarkers page ++ listedInOrder rest
  end.

(** The (key, version id) pair an identifier of a request stands for, and
    the pair of a listed entry. *)
Definition pairOfId (o : types.ObjectIdentifier) : string * string :=
  (types.Key o, types.VersionId o).

Definition pairOfVersion (v : objectVersion) : string * string :=
  (Key v, VersionId v).

(** Following the description of the request: it goes to the bucket [b],
    names the (key, version id) pair of every entry of the batch, in the
    order of the batch and nothing else, and switches the reporting of
    successful deletions off. *)
Definition namesBatch (b : string) (ovs : list objectVersion)
           (params : s3.DeleteObjectsInput) : Prop :=
  s3.Bucket params = b /\
  types.Quiet (s3.Delete params) = true /\
  map pairOfId (types.Objects (s3.Delete params)) = map pairOfVersion ovs.

(** ** Runs over a listing with delete markers *)

(** Two pages, each with versions and a delete marker. *)
Definition markerPages : list s3.ListObjectVersionsOutput :=
  [ {| s3.Versions := [ {| Key := "logs/a"; VersionId := "1" |};
                        {| Key := "logs/a"; VersionId := "2" |} ];
       s3.DeleteMarkers := [ {| Key := "logs/a"; VersionId := "3" |} ] |};
    {| s3.Versions := [ {| Key := "logs/b"; VersionId := "1" |} ];
       s3.DeleteMarkers := [ {| Key := "logs/c"; VersionId := "9" |} ] |} ].

Definition markerListing : listing := map inr markerPages.

Definition markerEntries : list objectVersion :=
  [ {| Key := "logs/a"; VersionId := "1" |};
    {| Key := "logs/a"; VersionId := "2" |};
    {| Key := "logs/a"; VersionId := "3" |};
    {| Key := "logs/b"; VersionId := "1" |};
    {| Key := "logs/c"; VersionId := "9" |} ].

(** Batches of 2: three batches, the second holding a delete marker and a
    version of the next page; one per-item failure for the first batch. *)
Definition markerSchedule : list event :=
  repeat Main 11
  ++ [ Worker 2 answerOk; Worker 0 answerOneError; Worker 1 answerOk;
       Worker 1 answerOk; Aggregator; Worker 0 answerOk; Aggregator;
       Worker 2 answerOk; Aggregator; Aggregator; Aggregator; Aggregator;
       Main; Main ].

Definition markerFinal : process :=
  finalOf logsSettings markerSchedule markerListing.

(** The same listing with [-prefix ///] and [-batch 0]: one batch. *)
Definition slashFlags : flags :=
  {| fPrefix := "///"; fBucket := "bkt"; fBatchSize := 0;
     fRegion := "eu-west-1" |}.

Definition slashSchedule : list event :=
  repeat Main 11
  ++ [ Worker 0 answerOk; Worker 0 answerOk; Aggregator; Aggregator;
       Main; Main ].

Definition slashFinal : process :=
  finalOf zeroSettings slashSchedule markerListing.

(** * Proofs *)

(** ** Wrap-around arithmetic *)

Lemma wrapInt_small (z : Z) : MinInt <= z <= MaxInt -> wrapInt z = z.
Proof.
  unfold MinInt, MaxInt, wrapInt, intBits. simpl Z.sub. intros H.
  rewrite Z.mod_small; lia.
Qed.

Lemma wrapInt_add_l (a b : Z) : wrapInt (wrapInt a + b) = wrapInt (a + b).
Proof.
  unfold wrapInt. f_equal.
  replace ((a + 2 ^ (intBits - 1)) mod 2 ^ intBits - 2 ^ (intBits - 1) + b
           + 2 ^ (intBits - 1))
    with ((a + 2 ^ (intBits - 1)) mod 2 ^ intBits + b) by lia.
  rewrite Zplus_mod_idemp_l. f_equal. lia.
Qed.

Lemma wrapInt_range (z : Z) : MinInt <= wrapInt z <= MaxInt.
Proof.
  unfold MinInt, MaxInt, wrapInt, intBits. simpl Z.sub.
  pose proof (Z.mod_pos_bound (z + 2 ^ 63) (2 ^ 64) ltac:(lia)). lia.
Qed.

Lemma len_nonneg {A : Type} (l : list A) : 0 <= len l.
Proof. unfold len. lia. Qed.

Lemma len_app {A : Type} (l1 l2 : list A) : len (l1 ++ l2) = len l1 + len l2.
Proof. unfold len. rewrite length_app. lia. Qed.

Lemma len_map {A B : Type} (f : A -> B) (l : list A) : len (map f l) = len l.
Proof. unfold len. rewrite length_map. reflexivity. Qed.

Lemma len_nil_iff {A : Type} (l : list A) : len l = 0 <-> l = [].
Proof.
  unfold len. destruct l; simpl; split; intros; try reflexivity; try discriminate; lia.
Qed.

(** ** Schedules and reachable states *)

Lemma execAll_app (c : settings) (es1 es2 : list event) (p : process) :
  execAll c (es1 ++ es2) p =
  match execAll c es1 p with
  | Some p' => execAll c es2 p'
  | None => None
  end.
Proof.
  revert p. induction es1 as [|e es1 IH]; intros p; simpl.
  - reflexivity.
  - destruct (exec c e p); [apply IH | reflexivity].
Qed.

Lemma exec_alive (c : settings) (e : event) (p p' : process) :
  exec c e p = Some p' -> exited p = None.
Proof. unfold exec. destruct (exited p); [discriminate | reflexivity]. Qed.

Lemma reaches_start (c : settings) (l : listing) : reaches c l (start l).
Proof. exists []. reflexivity. Qed.

Lemma reaches_step (c : settings) (l : listing) (e : event) (p p' : process) :
  reaches c l p -> exec c e p = Some p' -> reaches c l p'.
Proof.
  intros [es H] He. exists (es ++ [e]).
  rewrite execAll_app, H. simpl. rewrite He. reflexivity.
Qed.

(** Induction over the reachable states: a property of the start state
    that every step out of a live state preserves holds of every
    reachable state. *)
Lemma reaches_ind (c : settings) (l : listing) (Inv : process -> Prop) :
  Inv (start l) ->
  (forall e p p', reaches c l p -> Inv p -> exec c e p = Some p' -> Inv p') ->
  forall p, reaches c l p -> Inv p.
Proof.
  intros H0 Hstep p [es H].
  revert p H. induction es as [|e es IH] using rev_ind; intros p H.
  - simpl in H. injection H as <-. exact H0.
  - rewrite execAll_app in H.
    destruct (execAll c es (start l)) as [q|] eqn:Hq; [|discriminate].
    simpl in H. destruct (exec c e q) as [q'|] eqn:He; [|discriminate].
    injection H as <-. apply (Hstep e q q'); auto. exists es. exact Hq.
Qed.

(** A state that exited successfully was reached by the final print from a
    live state at [AtPrint]. *)
Lemma exited_ok_inv (c : settings) (l : listing) (p : process) :
  reaches c l p -> exited p = Some ExitOk ->
  exists q, reaches c l q /\ exited q = None /\ pc q = AtPrint /\
            p = exit ExitOk (printf (totalLine (numObjects q)) q).
Proof.
  intros [es H]. destruct es as [|e es] using rev_ind.
  - simpl in H. injection H as <-. discriminate.
  - clear IHes. rewrite execAll_app in H.
    destruct (execAll c es (start l)) as [q|] eqn:Hq; [|discriminate].
    simpl in H. destruct (exec c e q) as [q'|] eqn:He; [|discriminate].
    injection H as <-. intros Hex.
    pose proof (exec_alive _ _ _ He) as Hal.
    exists q. split; [exists es; exact Hq|]. split; [exact Hal|].
    unfold exec in He. rewrite Hal in He.
    destruct e as [|i res|].
    + unfold mainStep in He.
      destruct (pc q) as [[|[err|page] rest]|[|v vs] rest| | |] eqn:Hpc;
        try (injection He as <-; simpl in Hex; congruence).
      * injection He as <-. unfold deleteVersion in Hex.
        destruct (negb _ && negb _); simpl in Hex; [discriminate|].
        destruct (_ =? _); simpl in Hex; congruence.
      * injection He as <-. unfold flush in Hex.
        destruct (_ >? _); simpl in Hex; congruence.
      * destruct (waitGroup q =? 0); [|discriminate].
        injection He as <-. simpl in Hex. congruence.
      * injection He as <-. split; reflexivity.
    + unfold workerStep in He.
      destruct (nth_error (goroutines q) i) as [t|]; [|discriminate].
      destruct (code t); try discriminate.
      * injection He as <-. simpl in Hex. congruence.
      * destruct (_ <? _); [|discriminate].
        injection He as <-. simpl in Hex. congruence.
      * injection He as <-. simpl in Hex. discriminate.
    + unfold aggregatorStep in He.
      destruct (aggregator q).
      * destruct (results q); [discriminate|].
        injection He as <-. simpl in Hex. congruence.
      * destruct (_ <? _); injection He as <-; simpl in Hex; congruence.
Qed.

Lemma objectVersion_eta (v : objectVersion) :
  {| Key := Key v; VersionId := VersionId v |} = v.
Proof. destruct v; reflexivity. Qed.

Lemma deleteVersion_out_of_scope (c : settings) (key versionId : string) (p : process) :
  inScope c key = false ->
  deleteVersion c key versionId p = exit (ExitFatal (WithoutRequestedPrefix key)) p.
Proof.
  unfold inScope, deleteVersion. intros H.
  destruct (negb _ && negb _); [reflexivity | discriminate].
Qed.

Lemma deleteVersion_in_scope (c : settings) (key versionId : string) (p : process) :
  inScope c key = true ->
  deleteVersion c key versionId p =
  let p1 := appended {| Key := key; VersionId := versionId |} p in
  if len (batch p1) =? batchSize c then setBatch [] (dispatch c p1) else p1.
Proof.
  unfold inScope, deleteVersion. intros H.
  destruct (negb _ && negb _); [discriminate | reflexivity].
Qed.

(** The executable steps are exactly the cases of [step]. *)
Lemma exec_step (c : settings) (e : event) (p p' : process) :
  exec c e p = Some p' -> step c e p p'.
Proof.
  intros He. pose proof (exec_alive _ _ _ He) as Hal.
  unfold exec in He. rewrite Hal in He. destruct e as [|i res|].
  - unfold mainStep in He.
    destruct (pc p) as [[|[err|page] rest]|[|v vs] rest| | |] eqn:Hpc.
    + injection He as <-. now apply step_no_more_pages.
    + injection He as <-. eapply step_list_failed; eassumption.
    + injection He as <-. now apply step_next_page.
    + injection He as <-. now apply step_page_done.
    + injection He as <-.
      destruct (inScope c (Key v)) eqn:Hs.
      * rewrite (deleteVersion_in_scope _ _ _ _ Hs). rewrite objectVersion_eta.
        cbv zeta. destruct (Z.eqb_spec (len (batch
            (appended v (setPc (InPage vs rest) p)))) (batchSize c)) as [E|E].
        -- now apply step_seal.
        -- now apply step_append.
      * rewrite (deleteVersion_out_of_scope _ _ _ _ Hs). now apply step_out_of_scope.
    + injection He as <-. unfold flush.
      destruct (len (batch p) >? 0) eqn:E.
      * apply step_flush_some; [assumption|]. apply Z.gtb_lt in E. lia.
      * apply step_flush_none; [assumption|]. apply len_nil_iff.
        pose proof (len_nonneg (batch p)).
        pose proof (Zgt_cases (len (batch p)) 0) as G. rewrite E in G. lia.
    + destruct (Z.eqb_spec (waitGroup p) 0); [|discriminate].
      injection He as <-. now apply step_wait.
    + injection He as <-. now apply step_print.
  - unfold workerStep in He.
    destruct (nth_error (goroutines p) i) as [t|] eqn:Hn; [|discriminate].
    destruct (code t) as [|params k|r k|f] eqn:Hc; try discriminate.
    + injection He as <-. now apply step_request.
    + destruct (Z.ltb_spec (len (results p)) resultsCap); [|discriminate].
      injection He as <-. now apply step_send.
    + injection He as <-. now eapply step_worker_fatal; eauto.
  - unfold aggregatorStep in He.
    destruct (aggregator p) eqn:Ha.
    + destruct (results p) as [|r rest] eqn:Hr; [discriminate|].
      injection He as <-. now apply step_receive.
    + destruct (Z.ltb_spec (waitGroup p - 1) 0); injection He as <-.
      * apply step_done_panic; [assumption | lia].
      * apply step_done; [assumption | lia].
Qed.

(** And every case of [step] out of a live state is executable. *)
Lemma step_exec (c : settings) (e : event) (p p' : process) :
  exited p = None -> step c e p p' -> exec c e p = Some p'.
Proof.
  intros Hal Hs. unfold exec. rewrite Hal.
  destruct Hs; unfold mainStep, workerStep, aggregatorStep;
    repeat match goal with H : _ = _ |- _ => rewrite H end; try reflexivity.
  - rewrite deleteVersion_out_of_scope by assumption. reflexivity.
  - rewrite deleteVersion_in_scope by assumption. rewrite objectVersion_eta.
    cbv zeta. destruct (Z.eqb_spec (len (batch
        (appended v (setPc (InPage vs rest) p)))) (batchSize c)) as [E|E];
      [simpl in E; contradiction | reflexivity].
  - rewrite deleteVersion_in_scope by assumption. rewrite objectVersion_eta.
    cbv zeta. destruct (Z.eqb_spec (len (batch
        (appended v (setPc (InPage vs rest) p)))) (batchSize c)) as [E|E];
      [reflexivity | simpl in E; contradiction].
  - unfold flush. destruct (len (batch p) >? 0) eqn:E; [reflexivity|].
    pose proof (Zgt_cases (len (batch p)) 0) as G. rewrite E in G. lia.
  - unfold flush. rewrite H0. reflexivity.
  - destruct (Z.ltb_spec (len (results p)) resultsCap); [reflexivity | lia].
  - destruct (Z.ltb_spec (waitGroup p - 1) 0); [lia | reflexivity].
  - destruct (Z.ltb_spec (waitGroup p - 1) 0); [reflexivity | lia].
Qed.

(** ** The accumulator invariant *)

Lemma nth_error_setNth {A : Type} (l : list A) (i j : nat) (x : A) :
  nth_error (setNth i x l) j =
  if Nat.eqb i j then match nth_error l j with Some _ => Some x | None => None end
  else nth_error l j.
Proof.
  revert i j. induction l as [|y l IH]; intros [|i] [|j]; simpl; try reflexivity.
  - destruct (Nat.eqb i j); reflexivity.
  - apply IH.
Qed.

Lemma length_setNth {A : Type} (l : list A) (i : nat) (x : A) :
  length (setNth i x l) = length l.
Proof.
  revert i. induction l as [|y l IH]; intros [|i]; simpl; auto.
Qed.

Lemma map_setNth_same {A B : Type} (f : A -> B) (l : list A) (i : nat) (x y : A) :
  nth_error l i = Some y -> f x = f y -> map f (setNth i x l) = map f l.
Proof.
  revert i. induction l as [|z l IH]; intros [|i]; simpl; intros H E;
    try discriminate.
  - injection H as ->. now rewrite E.
  - f_equal. now apply IH.
Qed.

Lemma dispatched_setCode (i : nat) (t : task) (g : goroutine) (p : process) :
  nth_error (goroutines p) i = Some t ->
  dispatched (setCode i t g p) = dispatched p.
Proof.
  intros H. unfold dispatched, setCode. simpl.
  now apply map_setNth_same with (y := t).
Qed.

Lemma accInv_start (c : settings) (l : listing) : accInv c l (start l) [].
Proof.
  constructor; simpl; try reflexivity; auto.
  - unfold len. simpl. lia.
Qed.

Ltac accInv_same sealed :=
  exists sealed; constructor; simpl; unfold finalBatch, dispatched; simpl;
  try match goal with H : pc _ = _ |- _ => rewrite H; simpl end; auto.

Lemma accInv_step (c : settings) (l : listing) (e : event) (p p' : process)
      (sealed : list (list objectVersion)) :
  accInv c l p sealed -> step c e p p' ->
  exited p' = None \/ flushed (pc p') = true ->
  exists sealed', accInv c l p' sealed'.
Proof.
  intros [Hd Hs He Ho Hz Hc] Hstep Hal.
  destruct Hstep;
    unfold finalBatch, dispatched in *; simpl in Hal;
    repeat match goal with H : pc _ = _ |- _ => rewrite H in * end;
    simpl in *.
  - (* no more pages *) accInv_same sealed.
  - (* listing failed *) destruct Hal; discriminate.
  - (* next page *) accInv_same sealed.
  - (* page done *) accInv_same sealed.
  - (* out of scope *) destruct Hal; discriminate.
  - (* append *)
    accInv_same sealed.
    + rewrite <- He. rewrite <- !app_assoc. reflexivity.
    + intros H1'. specialize (Ho H1'). rewrite len_app in *.
      unfold len in *. simpl in *. lia.
    + rewrite Hc. rewrite wrapInt_add_l. f_equal.
      rewrite !len_app. unfold len. simpl. lia.
  - (* seal *)
    exists (sealed ++ [batch p ++ [v]]).
    constructor; simpl; unfold finalBatch, dispatched; simpl.
    + rewrite map_app. simpl. rewrite Hd, !app_nil_r. reflexivity.
    + apply Forall_app. split; [assumption|]. constructor; [assumption | constructor].
    + rewrite List.concat_app. simpl. rewrite <- He.
      rewrite !app_nil_r, <- !app_assoc. reflexivity.
    + intros _. unfold len. simpl. rewrite len_app in *. unfold len in *.
      simpl in *. lia.
    + intros Hle. rewrite len_app in *. unfold len in *. simpl in *. lia.
    + rewrite Hc, wrapInt_add_l. f_equal.
      rewrite List.concat_app. simpl. rewrite !app_nil_r, !len_app.
      unfold len. simpl. lia.
  - (* flush of an open batch *)
    accInv_same sealed.
    rewrite map_app. simpl. rewrite Hd, app_nil_r.
    destruct (batch p); [unfold len in *; simpl in *; lia | reflexivity].
  - (* nothing to flush *)
    accInv_same sealed. rewrite Hd, H0. reflexivity.
  - (* wait *) accInv_same sealed.
  - (* print *) accInv_same sealed.
  - (* request *)
    accInv_same sealed.
    rewrite <- Hd. now apply map_setNth_same with (y := t).
  - (* send *)
    accInv_same sealed.
    rewrite <- Hd. now apply map_setNth_same with (y := t).
  - (* a worker fails *) accInv_same sealed.
  - (* receive *) accInv_same sealed.
  - (* done *) accInv_same sealed.
  - (* done at zero *) accInv_same sealed.
Qed.

Lemma accInv_reaches (c : settings) (l : listing) (p : process) :
  reaches c l p -> exited p = None \/ flushed (pc p) = true ->
  exists sealed, accInv c l p sealed.
Proof.
  intros Hr. pattern p. revert p Hr. apply reaches_ind.
  - intros _. exists []. apply accInv_start.
  - intros e p p' Hr IH He Hal.
    destruct (IH (or_introl (exec_alive _ _ _ He))) as [sealed Hinv].
    eapply accInv_step; eauto using exec_step.
Qed.

(** ** The counting invariant *)

Lemma sumZ_app {A : Type} (f : A -> Z) (l1 l2 : list A) :
  sumZ f (l1 ++ l2) = sumZ f l1 + sumZ f l2.
Proof. induction l1 as [|x l1 IH]; simpl; [reflexivity | rewrite IH; lia]. Qed.

Lemma sumZ_setNth {A : Type} (f : A -> Z) (l : list A) (i : nat) (x t : A) :
  nth_error l i = Some t -> sumZ f (setNth i x l) = sumZ f l - f t + f x.
Proof.
  revert i. induction l as [|y l IH]; intros [|i]; simpl; intros H;
    try discriminate.
  - injection H as ->. lia.
  - rewrite (IH _ H). lia.
Qed.

Lemma sumZ_nonneg {A : Type} (f : A -> Z) (l : list A) :
  (forall x, 0 <= f x) -> 0 <= sumZ f l.
Proof.
  intros H. induction l as [|x l IH]; simpl; [lia | specialize (H x); lia].
Qed.

Lemma sumZ_zero {A : Type} (f : A -> Z) (l : list A) :
  (forall x, 0 <= f x) -> sumZ f l = 0 -> Forall (fun x => f x = 0) l.
Proof.
  intros H. induction l as [|x l IH]; simpl; intros E; constructor.
  - pose proof (H x). pose proof (sumZ_nonneg f l H). lia.
  - apply IH. pose proof (H x). pose proof (sumZ_nonneg f l H). lia.
Qed.

Lemma sumZ_ext_Forall {A : Type} (f g : A -> Z) (l : list A) :
  Forall (fun x => f x = g x) l -> sumZ f l = sumZ g l.
Proof. induction 1; simpl; congruence. Qed.

Lemma sumZ_len_concat {A : Type} (bs : list (list A)) :
  sumZ (fun b => len b) bs = len (List.concat bs).
Proof.
  induction bs as [|b bs IH]; simpl; [reflexivity|]. rewrite len_app, IH. reflexivity.
Qed.

Lemma sumZ_map {A B : Type} (f : B -> Z) (g : A -> B) (l : list A) :
  sumZ f (map g l) = sumZ (fun x => f (g x)) l.
Proof. induction l as [|x l IH]; simpl; congruence. Qed.

Lemma busy_nonneg (t : task) : 0 <= busy t.
Proof. unfold busy. destruct (code t); lia. Qed.

Lemma Forall_setNth {A : Type} (P : A -> Prop) (l : list A) (i : nat) (x : A) :
  Forall P l -> P x -> Forall P (setNth i x l).
Proof.
  intros H Hx. revert i. induction H as [|y l Hy Hl IH]; intros [|i]; simpl;
    constructor; auto.
Qed.

Lemma Forall_nth_error {A : Type} (P : A -> Prop) (l : list A) (i : nat) (x : A) :
  Forall P l -> nth_error l i = Some x -> P x.
Proof.
  intros H Hn. rewrite Forall_forall in H. apply H.
  eapply nth_error_In; eauto.
Qed.

Lemma countInv_start (c : settings) (l : listing) : countInv c (start l).
Proof. constructor; simpl; try reflexivity; auto; discriminate. Qed.

(** A goroutine at its call is at the one call of [deleteObjectVersions]. *)
Lemma shape_at_call (b : string) (t : task) (params : s3.DeleteObjectsInput)
      (k : sdkError + s3.DeleteObjectsOutput -> goroutine) :
  taskShape b t -> code t = DeleteObjects params k ->
  code t = deleteObjectVersions b (objectVersions t).
Proof. intros [H|e H|err H|H] E; congruence. Qed.

Lemma shape_at_send (b : string) (t : task) (r : deleteBatchResult) (k : goroutine) :
  taskShape b t -> code t = ChanSend r k ->
  k = Return /\ BatchSize r = len (objectVersions t).
Proof.
  intros [H|e H|err H|H] E; rewrite E in H; try discriminate.
  injection H as -> ->. split; reflexivity.
Qed.

Lemma busy_calling (b : string) (ovs : list objectVersion) :
  busy {| objectVersions := ovs; code := deleteObjectVersions b ovs |} = 1.
Proof. reflexivity. Qed.

Lemma pendingSize_calling (b : string) (ovs : list objectVersion) :
  pendingSize {| objectVersions := ovs; code := deleteObjectVersions b ovs |}
  = len ovs.
Proof. reflexivity. Qed.

Lemma pendingErrors_calling (b : string) (ovs : list objectVersion) :
  pendingErrors {| objectVersions := ovs; code := deleteObjectVersions b ovs |}
  = 0.
Proof. reflexivity. Qed.

Ltac freeze_sums p :=
  set (sb := sumZ busy (goroutines p)) in *;
  set (sp := sumZ pendingSize (goroutines p)) in *;
  set (se := sumZ pendingErrors (goroutines p)) in *.

Ltac countInv_same :=
  constructor; unfold aggPending; simpl; auto;
  try (intros; discriminate);
  try match goal with H : pc _ = _ |- _ => rewrite H; discriminate end.

Lemma countInv_step (c : settings) (e : event) (p p' : process) :
  countInv c p -> step c e p p' -> countInv c p'.
Proof.
  intros [Hsh Hw Hsz Her Hnp Hne Hpr] Hstep.
  destruct Hstep; unfold aggPending in Hw.
  - countInv_same.
  - countInv_same.
  - countInv_same.
  - countInv_same.
  - countInv_same.
  - countInv_same.
  - (* seal *)
    constructor; simpl; auto; try (intros; discriminate).
    + apply Forall_app. split; [assumption|]. repeat constructor.
    + rewrite sumZ_app. simpl. rewrite ?busy_calling. unfold aggPending. simpl. lia.
    + rewrite !sumZ_app. simpl. rewrite ?pendingSize_calling. lia.
    + rewrite !sumZ_app. simpl. rewrite ?pendingErrors_calling. lia.
  - (* flush of an open batch *)
    constructor; simpl; auto; try (intros; discriminate).
    + apply Forall_app. split; [assumption|]. repeat constructor.
    + rewrite sumZ_app. simpl. rewrite ?busy_calling. unfold aggPending. simpl. lia.
    + rewrite !sumZ_app. simpl. rewrite ?pendingSize_calling. lia.
    + rewrite !sumZ_app. simpl. rewrite ?pendingErrors_calling. lia.
  - countInv_same.
  - constructor; simpl; auto.
  - countInv_same.
  - (* request *)
    pose proof (@Forall_nth_error _ _ _ _ _ Hsh H) as Ht.
    pose proof (shape_at_call Ht H0) as Hcall.
    rewrite Hcall in H0. unfold deleteObjectVersions in H0. injection H0 as _ <-.
    constructor; simpl; auto.
    + apply Forall_setNth; [assumption|].
      destruct res as [err|result].
      * apply shape_failing with (err := err). reflexivity.
      * apply shape_sending with (e := len (s3.Errors result)). reflexivity.
    + rewrite (@sumZ_setNth _ busy _ _ _ _ H). rewrite Hw. freeze_sums p.
      unfold busy, aggPending. rewrite Hcall. destruct res; simpl; lia.
    + rewrite (@sumZ_setNth _ pendingSize _ _ _ _ H).
      rewrite (@sumZ_setNth _ (fun t => len (objectVersions t)) _ _ _ _ H).
      freeze_sums p.
      unfold pendingSize. rewrite Hcall. destruct res; simpl; lia.
    + rewrite (@sumZ_setNth _ pendingErrors _ _ _ _ H). rewrite sumZ_app.
      freeze_sums p. set (si := sumZ itemErrors (requests p)) in *.
      unfold pendingErrors. rewrite Hcall. unfold itemErrors.
      destruct res; simpl; lia.
  - (* send *)
    pose proof (@Forall_nth_error _ _ _ _ _ Hsh H) as Ht.
    destruct (shape_at_send Ht H0) as [-> Hr].
    constructor; simpl; auto.
    + apply Forall_setNth; [assumption|]. apply shape_returned. reflexivity.
    + rewrite (@sumZ_setNth _ busy _ _ _ _ H). rewrite Hw, len_app.
      freeze_sums p.
      unfold busy, aggPending. rewrite H0. unfold len. simpl. lia.
    + rewrite (@sumZ_setNth _ pendingSize _ _ _ _ H).
      rewrite (@sumZ_setNth _ (fun t => len (objectVersions t)) _ _ _ _ H).
      rewrite sumZ_app. freeze_sums p.
      unfold pendingSize. rewrite H0. simpl. lia.
    + rewrite (@sumZ_setNth _ pendingErrors _ _ _ _ H). rewrite sumZ_app.
      freeze_sums p.
      unfold pendingErrors. rewrite H0. simpl. lia.
  - countInv_same.
  - (* receive *)
    rewrite H, H0 in *. simpl in *.
    constructor; unfold aggPending; simpl; auto.
    + unfold len in *. simpl in *. lia.
    + rewrite sumZ_app. simpl. lia.
    + rewrite sumZ_app. simpl. lia.
    + rewrite Hnp, wrapInt_add_l, sumZ_app. simpl. f_equal. lia.
    + rewrite Hne, wrapInt_add_l, sumZ_app. simpl. f_equal. lia.
  - (* done *)
    rewrite H in *. constructor; unfold aggPending; simpl; auto.
    + lia.
    + intros Hp. specialize (Hpr Hp). lia.
  - countInv_same.
Qed.

Lemma countInv_reaches (c : settings) (l : listing) (p : process) :
  reaches c l p -> countInv c p.
Proof.
  intros Hr. pattern p. revert p Hr. apply reaches_ind.
  - apply countInv_start.
  - intros e p p' _ IH He. eapply countInv_step; eauto using exec_step.
Qed.

(** ** The goroutine of [deleteObjectVersions] *)

Lemma appendObjects_spec (d : types.Delete) (ovs : list objectVersion) :
  appendObjects d ovs =
  {| types.Objects := types.Objects d ++ map ObjectIdentifierOf ovs;
     types.Quiet := types.Quiet d |}.
Proof.
  unfold appendObjects. revert d.
  induction ovs as [|v ovs IH]; intros d; simpl.
  - rewrite app_nil_r. destruct d; reflexivity.
  - rewrite IH. simpl. rewrite <- app_assoc. reflexivity.
Qed.

Lemma deleteObjectVersions_unfold (b : string) (ovs : list objectVersion) :
  deleteObjectVersions b ovs =
  DeleteObjects (deleteParams b ovs) (fun res =>
    match res with
    | inl err => LogFatalf (FailedToDelete err)
    | inr result => ChanSend (resultFor ovs result) Return
    end).
Proof.
  unfold deleteObjectVersions, deleteParams. rewrite appendObjects_spec.
  reflexivity.
Qed.

Lemma pairs_of_identifiers (ovs : list objectVersion) :
  map pairOfId (map ObjectIdentifierOf ovs) = map pairOfVersion ovs.
Proof. rewrite map_map. apply map_ext. intros v. reflexivity. Qed.

(** The request the goroutine builds is the request as it is described. *)
Lemma namesBatch_deleteParams (b : string) (ovs : list objectVersion) :
  namesBatch b ovs (deleteParams b ovs).
Proof.
  split; [reflexivity|]. split; [reflexivity|]. apply pairs_of_identifiers.
Qed.

(** ** One request for each goroutine that has called *)

Lemma nth_error_app_old {A : Type} (l : list A) (x y : A) (i : nat) :
  nth_error l i = Some y -> nth_error (l ++ [x]) i = Some y.
Proof.
  intros H. rewrite nth_error_app1; [assumption|].
  apply nth_error_Some. congruence.
Qed.

Lemma nth_error_app_last {A : Type} (l : list A) (x y : A) (i : nat) :
  nth_error (l ++ [x]) i = Some y ->
  nth_error l i = Some y \/ (i = length l /\ y = x).
Proof.
  intros H. destruct (Nat.lt_ge_cases i (length l)) as [Hlt|Hge].
  - left. rewrite nth_error_app1 in H; assumption.
  - right. rewrite nth_error_app2 in H by assumption.
    destruct (i - length l)%nat as [|n] eqn:E; simpl in H.
    + injection H as <-. split; [lia | reflexivity].
    + destruct n; discriminate.
Qed.

Lemma reqInv_start (c : settings) (l : listing) : reqInv c (start l).
Proof.
  constructor; simpl.
  - constructor.
  - intros q [].
  - intros [|i] t H; discriminate.
Qed.

Lemma reqInv_dispatch (c : settings) (p : process) (ovs : list objectVersion)
      (gs : list task) (rs : list request) :
  gs = goroutines p -> rs = requests p -> reqInv c p ->
  NoDup (map reqIndex rs) /\
  (forall q, In q rs ->
     exists t, nth_error (gs ++ [{| objectVersions := ovs;
                                    code := deleteObjectVersions (bucket c) ovs |}])
                         (reqIndex q) = Some t /\
               reqParams q = deleteParams (bucket c) (objectVersions t) /\
               answeredShape t (reqAnswer q)) /\
  (forall i t, nth_error (gs ++ [{| objectVersions := ovs;
                                    code := deleteObjectVersions (bucket c) ovs |}]) i
               = Some t ->
     called t = true -> In i (map reqIndex rs)).
Proof.
  intros -> -> [Ha Hb Hc]. split; [assumption|]. split.
  - intros q Hq. destruct (Hb q Hq) as (t & Hn & Hp & Hs).
    exists t. split; [now apply nth_error_app_old | auto].
  - intros i t Hn Hcalled.
    destruct (nth_error_app_last _ _ _ Hn) as [Hold|[_ ->]].
    + eapply Hc; eauto.
    + discriminate.
Qed.

Lemma reqInv_step (c : settings) (e : event) (p p' : process) :
  countInv c p -> reqInv c p -> step c e p p' -> reqInv c p'.
Proof.
  intros Hcnt Hinv Hstep.
  destruct Hstep; try (destruct Hinv; constructor; simpl; assumption).
  - (* seal *)
    destruct (@reqInv_dispatch c p (batch p ++ [v]) _ _ eq_refl eq_refl Hinv)
      as (Ha & Hb & Hc).
    constructor; simpl; assumption.
  - (* flush of an open batch *)
    destruct (@reqInv_dispatch c p (batch p) _ _ eq_refl eq_refl Hinv)
      as (Ha & Hb & Hc).
    constructor; simpl; assumption.
  - (* request *)
    destruct Hinv as [Ha Hb Hc].
    pose proof (@Forall_nth_error _ _ _ _ _ (cnt_shape Hcnt) H) as Ht.
    pose proof (shape_at_call Ht H0) as Hcall.
    rewrite Hcall, deleteObjectVersions_unfold in H0. injection H0 as <- <-.
    assert (Hfresh : ~ In i (map reqIndex (requests p))).
    { intros Hin. apply in_map_iff in Hin. destruct Hin as (q & Hqi & Hq).
      destruct (Hb q Hq) as (t' & Hn & _ & Hs). rewrite Hqi, H in Hn.
      assert (t' = t) by congruence. subst t'.
      unfold answeredShape in Hs. rewrite Hcall, deleteObjectVersions_unfold in Hs.
      destruct (reqAnswer q); [discriminate | destruct Hs; discriminate]. }
    constructor; simpl.
    + rewrite map_app. simpl. apply NoDup_app; [assumption | repeat constructor; intros [] | ].
      intros j Hj [<-|[]]. apply Hfresh. exact Hj.
    + intros q Hq. apply in_app_or in Hq. destruct Hq as [Hq|[<-|[]]].
      * destruct (Hb q Hq) as (t' & Hn & Hp & Hs).
        exists t'. split; [|auto].
        rewrite nth_error_setNth.
        destruct (Nat.eqb_spec i (reqIndex q)) as [E|E]; [|assumption].
        exfalso. apply Hfresh. rewrite E. apply in_map. exact Hq.
      * unfold reqIndex, reqParams, reqAnswer. simpl.
        eexists. split.
        -- rewrite nth_error_setNth, Nat.eqb_refl, H. reflexivity.
        -- split; [reflexivity|]. unfold answeredShape. simpl.
           destruct res; [reflexivity | left; reflexivity].
    + intros j t' Hn Hcalled. rewrite map_app. apply in_or_app.
      rewrite nth_error_setNth in Hn.
      destruct (Nat.eqb_spec i j) as [<-|E].
      * right. left. reflexivity.
      * left. eapply Hc; eauto.
  - (* send *)
    destruct Hinv as [Ha Hb Hc].
    pose proof (@Forall_nth_error _ _ _ _ _ (cnt_shape Hcnt) H) as Ht.
    destruct (shape_at_send Ht H0) as [-> Hr].
    constructor; simpl.
    + assumption.
    + intros q Hq. destruct (Hb q Hq) as (t' & Hn & Hp & Hs).
      rewrite nth_error_setNth.
      destruct (Nat.eqb_spec i (reqIndex q)) as [E|E].
      * rewrite Hn. rewrite <- E, H in Hn.
        assert (t' = t) by congruence. subst t'.
        eexists. split; [reflexivity|]. split; [exact Hp|].
        unfold answeredShape in *. simpl.
        destruct (reqAnswer q); [congruence | right; reflexivity].
      * exists t'. auto.
    + intros j t' Hn Hcalled. rewrite nth_error_setNth in Hn.
      destruct (Nat.eqb_spec i j) as [<-|E].
      * apply (Hc i t H). unfold called. rewrite H0. reflexivity.
      * eapply Hc; eauto.
Qed.

Lemma reqInv_reaches (c : settings) (l : listing) (p : process) :
  reaches c l p -> reqInv c p.
Proof.
  intros Hr. pattern p. revert p Hr. apply reaches_ind.
  - apply reqInv_start.
  - intros e p p' Hr IH He.
    eapply reqInv_step; eauto using exec_step, countInv_reaches.
Qed.

(** ** One result for each answered request *)

Lemma flat_map_setNth {A B : Type} (f : A -> list B) (l : list A) (i : nat)
      (x t : A) :
  nth_error l i = Some t ->
  Permutation (f t ++ flat_map f (setNth i x l)) (f x ++ flat_map f l).
Proof.
  revert i. induction l as [|y l IH]; intros [|i]; simpl; intros H;
    try discriminate.
  - injection H as ->. apply Permutation_app_swap_app.
  - rewrite Permutation_app_swap_app. rewrite (IH _ H).
    apply Permutation_app_swap_app.
Qed.

Lemma wayInv_start (l : listing) :
  Permutation (onTheWay (start l)) (flat_map answered (requests (start l))).
Proof. constructor. Qed.

Lemma wayInv_step (c : settings) (e : event) (p p' : process) :
  countInv c p -> step c e p p' ->
  Permutation (onTheWay p) (flat_map answered (requests p)) ->
  Permutation (onTheWay p') (flat_map answered (requests p')).
Proof.
  intros Hcnt Hstep Hinv. unfold onTheWay in *.
  destruct Hstep; simpl; try assumption.
  - (* seal *)
    rewrite flat_map_app. simpl. rewrite !app_nil_r. assumption.
  - (* flush of an open batch *)
    rewrite flat_map_app. simpl. rewrite !app_nil_r. assumption.
  - (* request *)
    pose proof (@Forall_nth_error _ _ _ _ _ (cnt_shape Hcnt) H) as Ht.
    pose proof (shape_at_call Ht H0) as Hcall.
    rewrite Hcall, deleteObjectVersions_unfold in H0. injection H0 as <- <-.
    rewrite flat_map_app. simpl. rewrite app_nil_r.
    pose proof (@flat_map_setNth _ _ sending (goroutines p) i
                  {| objectVersions := objectVersions t;
                     code := match res with
                             | inl err => LogFatalf (FailedToDelete err)
                             | inr result =>
                                 ChanSend (resultFor (objectVersions t) result) Return
                             end |} t H) as Hp.
    unfold sending at 1 in Hp. rewrite Hcall, deleteObjectVersions_unfold in Hp.
    simpl in Hp. rewrite Hp. rewrite <- Hinv.
    unfold answered, sending, reqAnswer, reqParams. simpl.
    destruct res as [err|result]; simpl.
    + rewrite app_nil_r. reflexivity.
    + rewrite len_map. fold (resultFor (objectVersions t) result).
      rewrite <- Permutation_cons_append. rewrite !app_assoc.
      symmetry. apply Permutation_middle.
  - (* send *)
    pose proof (@Forall_nth_error _ _ _ _ _ (cnt_shape Hcnt) H) as Ht.
    destruct (shape_at_send Ht H0) as [-> Hr].
    pose proof (@flat_map_setNth _ _ sending (goroutines p) i
                  {| objectVersions := objectVersions t; code := Return |} t H)
      as Hp.
    unfold sending at 1 3 in Hp. rewrite H0 in Hp. simpl in Hp.
    rewrite <- Hinv, <- Hp. rewrite <- !app_assoc. simpl.
    reflexivity.
  - (* receive *)
    rewrite H0 in Hinv. rewrite <- Hinv. rewrite <- !app_assoc. simpl.
    reflexivity.
Qed.

Lemma wayInv_reaches (c : settings) (l : listing) (p : process) :
  reaches c l p -> Permutation (onTheWay p) (flat_map answered (requests p)).
Proof.
  intros Hr. pattern p. revert p Hr. apply reaches_ind.
  - apply wayInv_start.
  - intros e p p' Hr IH He.
    eapply wayInv_step; eauto using exec_step, countInv_reaches.
Qed.

(** ** The pages read so far, and the state at the final print *)

Lemma pages_reaches (c : settings) (l : listing) (p : process) :
  reaches c l p -> exists pages, l = map inr pages ++ pagesAhead (pc p).
Proof.
  intros Hr. pattern p. revert p Hr. apply reaches_ind.
  - exists []. reflexivity.
  - intros e p p' _ [pages IH] He. apply exec_step in He.
    destruct He; simpl; try (exists pages; exact IH);
      rewrite H in IH; simpl in IH.
    + exists pages. rewrite IH. rewrite app_nil_r. reflexivity.
    + exists (pages ++ [page]). rewrite IH, map_app, <- app_assoc. reflexivity.
    + exists pages. exact IH.
    + exists pages. exact IH.
    + exists pages. exact IH.
    + exists pages. exact IH.
    + exists pages. rewrite IH, !app_nil_r. reflexivity.
    + exists pages. rewrite IH, !app_nil_r. reflexivity.
    + exists pages. rewrite IH, !app_nil_r. reflexivity.
Qed.

Lemma allEntries_pages (pages : list s3.ListObjectVersionsOutput) :
  allEntries (map inr pages) = flat_map pageEntries pages.
Proof. induction pages as [|pg pages IH]; simpl; congruence. Qed.

(** The pages as the program reads them are the pages as the listing is
    described. *)
Lemma listed_pages (pages : list s3.ListObjectVersionsOutput) :
  flat_map pageEntries pages = listedInOrder pages.
Proof.
  induction pages as [|pg pages IH]; simpl; [reflexivity|].
  unfold pageEntries at 1. rewrite IH, <- app_assoc. reflexivity.
Qed.

Lemma allEntries_listed (pages : list s3.ListObjectVersionsOutput) :
  allEntries (map inr pages) = listedInOrder pages.
Proof. rewrite allEntries_pages. apply listed_pages. Qed.

Lemma In_listedInOrder (pages : list s3.ListObjectVersionsOutput)
      (page : s3.ListObjectVersionsOutput) (v : objectVersion) :
  In page pages -> In v (s3.Versions page) \/ In v (s3.DeleteMarkers page) ->
  In v (listedInOrder pages).
Proof.
  induction pages as [|pg pages IH]; intros Hp Hv; [destruct Hp|].
  simpl. destruct Hp as [->|Hp].
  - destruct Hv as [Hv|Hv].
    + apply in_or_app. left. exact Hv.
    + apply in_or_app. right. apply in_or_app. left. exact Hv.
  - apply in_or_app. right. apply in_or_app. right. now apply IH.
Qed.

Lemma exited_ok_pc (c : settings) (l : listing) (p : process) :
  reaches c l p -> exited p = Some ExitOk -> pc p = AtPrint.
Proof.
  intros Hr He. destruct (exited_ok_inv Hr He) as (q & _ & _ & Hpc & ->).
  exact Hpc.
Qed.

(** Once the main goroutine is past [waitGroup.Wait()], every goroutine has
    returned, the channel is empty and the aggregator is idle. *)
Lemma at_print_quiet (c : settings) (l : listing) (p : process) :
  reaches c l p -> pc p = AtPrint ->
  Forall (fun t => code t = Return) (goroutines p) /\
  results p = [] /\ aggregator p = AggReceive.
Proof.
  intros Hr Hpc. pose proof (countInv_reaches Hr) as Hc.
  pose proof (cnt_wait Hc) as Hw. rewrite (cnt_printing Hc Hpc) in Hw.
  pose proof (sumZ_nonneg busy (goroutines p) busy_nonneg) as Hb.
  pose proof (len_nonneg (results p)) as Hl.
  assert (Ha : 0 <= aggPending p) by (unfold aggPending; destruct (aggregator p); lia).
  split; [|split].
  - assert (Hz : sumZ busy (goroutines p) = 0) by lia.
    apply (sumZ_zero busy _ busy_nonneg) in Hz.
    eapply Forall_impl; [|exact Hz]. intros t Ht. unfold busy in Ht.
    destruct (code t); try reflexivity; discriminate.
  - apply len_nil_iff. lia.
  - unfold aggPending in *. destruct (aggregator p); [reflexivity | lia].
Qed.

(** ** C3: the batches are the input, cut in pieces *)

Lemma NoDup_concat_later {A : Type} (bs : list (list A)) (b : list A)
      (j : nat) (x : A) :
  nth_error bs j = Some b -> In x b -> In x (List.concat bs).
Proof.
  intros Hn Hx. apply in_concat. exists b. split; [|assumption].
  eapply nth_error_In; eauto.
Qed.

Lemma NoDup_concat_disjoint {A : Type} (bs : list (list A)) :
  NoDup (List.concat bs) ->
  forall i j bi bj x, i <> j ->
    nth_error bs i = Some bi -> nth_error bs j = Some bj ->
    In x bi -> ~ In x bj.
Proof.
  induction bs as [|b bs IH]; intros Hnd i j bi bj x Hij Hi Hj Hxi Hxj.
  - destruct i; discriminate.
  - simpl in Hnd.
    assert (Hdis : forall y, In y b -> ~ In y (List.concat bs)).
    { clear - Hnd. induction b as [|a b IHb]; intros y Hy; [destruct Hy|].
      simpl in Hnd. inversion Hnd as [|? ? Hna Hnd']; subst.
      destruct Hy as [<-|Hy].
      - intros Hc. apply Hna. apply in_or_app. right. exact Hc.
      - apply IHb; assumption. }
    destruct i as [|i], j as [|j]; simpl in Hi, Hj.
    + congruence.
    + injection Hi as <-. apply (Hdis x Hxi). eapply NoDup_concat_later; eauto.
    + injection Hj as <-. apply (Hdis x Hxj). eapply NoDup_concat_later; eauto.
    + apply (IH (NoDup_app_remove_l _ _ Hnd) i j bi bj x); auto.
Qed.

Lemma concat_dispatched (c : settings) (l : listing) (p : process) :
  reaches c l p -> flushed (pc p) = true ->
  List.concat (dispatched p) = allEntries l.
Proof.
  intros Hr Hf. destruct (accInv_reaches Hr (or_intror Hf)) as [sealed Hi].
  rewrite (acc_dispatched Hi), <- (acc_entries Hi). unfold finalBatch. rewrite Hf.
  assert (Hrem : remaining (pc p) = []) by (destruct (pc p); try discriminate; reflexivity).
  rewrite Hrem, List.concat_app, app_nil_r.
  destruct (batch p); simpl; rewrite ?app_nil_r; reflexivity.
Qed.

Lemma skipn_length_app {A : Type} (a l : list A) (k : nat) :
  skipn (length a + k) (a ++ l) = skipn k l.
Proof. induction a as [|x a IH]; simpl; [reflexivity | exact IH]. Qed.

(** The [i]-th of a list of pieces is the slice of their concatenation that
    starts where the earlier pieces end. *)
Lemma concat_nth_slice {A : Type} (bs : list (list A)) :
  forall i b, nth_error bs i = Some b ->
  b = firstn (length b)
             (skipn (length (List.concat (firstn i bs))) (List.concat bs)).
Proof.
  induction bs as [|a bs IH]; intros [|i] b H; simpl in H; try discriminate.
  - injection H as ->. simpl.
    rewrite firstn_app, firstn_all, Nat.sub_diag. simpl.
    rewrite app_nil_r. reflexivity.
  - simpl. rewrite length_app, skipn_length_app. now apply IH.
Qed.

(** C3. Once the listing is exhausted and the last batch flushed, the
    batches handed to the workers, concatenated in the order they were
    dispatched, are exactly the entries of the listing in the order it is
    described: page by page, the versions of a page and then its delete
    markers. Their sizes add up to the number of entries; each batch is the
    slice of the listing that starts where the batches before it end, so no
    position of the listing is in two batches, and when the listing has no
    duplicate entry no entry is in two batches. *)
Theorem C3_batches_partition_listing (c : settings) (l : listing) (p : process) :
  reaches c l p -> flushed (pc p) = true ->
  exists pages,
    l = map inr pages /\
    List.concat (dispatched p) = listedInOrder pages /\
    sumZ (fun b => len b) (dispatched p) = len (listedInOrder pages) /\
    (forall i b, nth_error (dispatched p) i = Some b ->
       b = firstn (length b)
                  (skipn (length (List.concat (firstn i (dispatched p))))
                         (listedInOrder pages))) /\
    (NoDup (listedInOrder pages) ->
     forall i j bi bj x, i <> j ->
       nth_error (dispatched p) i = Some bi ->
       nth_error (dispatched p) j = Some bj ->
       In x bi -> ~ In x bj).
Proof.
  intros Hr Hf. destruct (pages_reaches Hr) as [pages Hp].
  assert (Hah : pagesAhead (pc p) = [])
    by (destruct (pc p); try discriminate; reflexivity).
  rewrite Hah, app_nil_r in Hp. exists pages.
  pose proof (concat_dispatched Hr Hf) as Hc.
  rewrite Hp, allEntries_listed in Hc.
  split; [exact Hp|]. split; [exact Hc|]. split; [|split].
  - rewrite sumZ_len_concat, Hc. reflexivity.
  - intros i b Hn. rewrite <- Hc. now apply concat_nth_slice.
  - intros Hnd. apply NoDup_concat_disjoint. rewrite Hc. exact Hnd.
Qed.

Lemma logs_run : execAll logsSettings logsSchedule (start logsListing) = Some logsFinal.
Proof. vm_compute. reflexivity. Qed.

Lemma zero_run : execAll zeroSettings zeroSchedule (start zeroListing) = Some zeroFinal.
Proof. vm_compute. reflexivity. Qed.

Lemma C3_witness :
  reaches logsSettings markerListing markerFinal /\
  List.concat (dispatched markerFinal) = markerEntries /\
  exists pages,
    markerListing = map inr pages /\
    List.concat (dispatched markerFinal) = listedInOrder pages /\
    sumZ (fun b => len b) (dispatched markerFinal) = len (listedInOrder pages) /\
    (forall i b, nth_error (dispatched markerFinal) i = Some b ->
       b = firstn (length b)
                  (skipn (length (List.concat (firstn i (dispatched markerFinal))))
                         (listedInOrder pages))) /\
    (NoDup (listedInOrder pages) ->
     forall i j bi bj x, i <> j ->
       nth_error (dispatched markerFinal) i = Some bi ->
       nth_error (dispatched markerFinal) j = Some bj ->
       In x bi -> ~ In x bj).
Proof.
  assert (H : reaches logsSettings markerListing markerFinal)
    by (exists markerSchedule; vm_compute; reflexivity).
  split; [exact H|]. split; [vm_compute; reflexivity|].
  apply (@C3_batches_partition_listing logsSettings markerListing markerFinal H).
  vm_compute. reflexivity.
Defined.

(** ** C1: the sizes of the batches *)

Lemma len_concat_uniform {A : Type} (bs : list (list A)) (C : Z) :
  Forall (fun b => len b = C) bs -> len (List.concat bs) = len bs * C.
Proof.
  induction 1 as [|b bs Hb Hbs IH].
  - reflexivity.
  - cbn [List.concat]. rewrite len_app, IH, Hb. unfold len. cbn [length]. lia.
Qed.

Lemma flushed_remaining (x : mainPc) : flushed x = true -> remaining x = [].
Proof. destruct x; try discriminate; reflexivity. Qed.

(** C1, for capacities of at least 1. Over a listing of [N] entries the
    accumulator dispatches [ceil(N/C)] batches (none when [N = 0]); every
    batch but the last has exactly [C] entries, the last has [N mod C]
    entries, or [C] when [N] is a positive multiple of [C]; no batch is
    empty. *)
Theorem C1_batch_sizes (c : settings) (l : listing) (p : process) :
  1 <= batchSize c ->
  reaches c l p -> flushed (pc p) = true ->
  batchingClaim c l p.
Proof.
  intros HC Hr Hf. destruct (accInv_reaches Hr (or_intror Hf)) as [sealed Hi].
  destruct Hi as [Hd Hs He Ho _ _]. specialize (Ho HC).
  rewrite (flushed_remaining _ Hf), app_nil_r in He.
  unfold finalBatch in Hd. rewrite Hf in Hd.
  pose proof (len_concat_uniform Hs) as Hk.
  pose proof (len_nonneg sealed) as Hk0.
  pose proof (len_nonneg (batch p)) as Hr0.
  assert (HN : len (allEntries l) = len sealed * batchSize c + len (batch p)).
  { rewrite <- He, len_app, Hk. reflexivity. }
  unfold batchingClaim. cbv zeta. rewrite HN.
  set (C := batchSize c) in *. set (k := len sealed) in *.
  assert (Hmod : (k * C + len (batch p)) mod C = len (batch p)).
  { symmetry. apply Z.mod_unique_pos with (q := k); lia. }
  rewrite Hmod.
  destruct (batch p) as [|v b'] eqn:Hb.
  - (* the listing ended on a batch boundary *)
    rewrite app_nil_r in Hd. rewrite Hd. fold k.
    change (len (@nil objectVersion)) with 0 in *.
    split; [|split; [|split]].
    + unfold ceilDiv. apply Z.div_unique_pos with (r := C - 1); lia.
    + intros i b Hn _. apply (@Forall_nth_error _ _ _ _ _ Hs Hn).
    + intros init b Hinit. simpl.
      assert (Hin : In b sealed) by (rewrite Hinit; apply in_or_app; right; left; reflexivity).
      rewrite Forall_forall in Hs. apply Hs. exact Hin.
    + rewrite Forall_forall in *. intros b Hin Hnil. specialize (Hs b Hin).
      subst b. change (len (@nil objectVersion)) with 0 in Hs. lia.
  - (* a last, shorter batch *)
    set (r := len (v :: b')) in *.
    assert (Hrpos : 1 <= r) by (unfold r, len; simpl; lia).
    rewrite Hd, len_app. fold k. change (len [v :: b']) with 1.
    split; [|split; [|split]].
    + unfold ceilDiv. apply Z.div_unique_pos with (r := r - 1); lia.
    + intros i b Hn Hlt.
      assert (Hi : (i < length sealed)%nat) by (unfold k, len in Hlt; lia).
      rewrite nth_error_app1 in Hn by assumption.
      apply (@Forall_nth_error _ _ _ _ _ Hs Hn).
    + intros init b Hinit. apply app_inj_tail in Hinit. destruct Hinit as [_ <-].
      fold r. destruct (Z.eqb_spec r 0); [lia | reflexivity].
    + apply Forall_app. split.
      * rewrite Forall_forall in *. intros b Hin Hnil. specialize (Hs b Hin).
        subst b. change (len (@nil objectVersion)) with 0 in Hs. lia.
      * constructor; [discriminate | constructor].
Qed.

Lemma C1_witness : batchingClaim logsSettings logsListing logsFinal.
Proof.
  apply (@C1_batch_sizes logsSettings logsListing logsFinal).
  - vm_compute. discriminate.
  - exists logsSchedule. vm_compute. reflexivity.
  - vm_compute. reflexivity.
Defined.

(** At capacity 0, which [-batch 0] configures, one listed entry is
    dispatched as one batch of one entry: that is neither [ceil(1/0)]
    batches under any reading of the quotient (no multiple of 0 reaches 1)
    nor a batch within the capacity. *)
Lemma C1_counterexample_capacity_zero :
  setup zeroFlags None = inr zeroSettings /\
  reaches zeroSettings zeroListing zeroFinal /\
  exited zeroFinal = Some ExitOk /\
  dispatched zeroFinal = [[ {| Key := "x"; VersionId := "1" |} ]] /\
  (forall k, ~ len (allEntries zeroListing) <= k * batchSize zeroSettings) /\
  ~ batchingClaim zeroSettings zeroListing zeroFinal.
Proof.
  split; [reflexivity|]. split; [exists zeroSchedule; vm_compute; reflexivity|].
  split; [reflexivity|]. split; [reflexivity|]. split.
  - intros k. vm_compute. destruct k; intros H; apply H; reflexivity.
  - intros [H _]. vm_compute in H. discriminate.
Qed.

(** ** The state at the final print *)

Lemma sending_returned (gs : list task) :
  Forall (fun t => code t = Return) gs -> flat_map sending gs = [].
Proof.
  induction 1 as [|t gs Ht _ IH]; simpl; [reflexivity|].
  unfold sending at 1. rewrite Ht. exact IH.
Qed.

Lemma pendingSize_returned (gs : list task) :
  Forall (fun t => code t = Return) gs -> sumZ pendingSize gs = 0.
Proof.
  induction 1 as [|t gs Ht _ IH]; simpl; [reflexivity|].
  unfold pendingSize at 1. rewrite Ht, IH. reflexivity.
Qed.

Lemma pendingErrors_returned (gs : list task) :
  Forall (fun t => code t = Return) gs -> sumZ pendingErrors gs = 0.
Proof.
  induction 1 as [|t gs Ht _ IH]; simpl; [reflexivity|].
  unfold pendingErrors at 1. rewrite Ht, IH. reflexivity.
Qed.

(** At the final print the storage service has answered one request for
    each dispatched batch, the one naming the pairs of that batch, and has
    completed it. *)
Lemma requests_at_print (c : settings) (l : listing) (p : process) :
  reaches c l p -> pc p = AtPrint ->
  Permutation (map reqIndex (requests p)) (seq 0 (length (dispatched p))) /\
  forall q, In q (requests p) ->
    exists b result,
      nth_error (dispatched p) (reqIndex q) = Some b /\
      reqParams q = deleteParams (bucket c) b /\
      reqAnswer q = inr result.
Proof.
  intros Hr Hpc. destruct (at_print_quiet Hr Hpc) as (Hret & _ & _).
  destruct (reqInv_reaches Hr) as [Ha Hb Hc].
  unfold dispatched. rewrite length_map. split.
  - apply NoDup_Permutation; [assumption | apply seq_NoDup |].
    intros i. rewrite in_seq. split.
    + intros Hin. apply in_map_iff in Hin. destruct Hin as (q & <- & Hq).
      destruct (Hb q Hq) as (t & Hn & _).
      assert (nth_error (goroutines p) (reqIndex q) <> None) by congruence.
      apply nth_error_Some in H. lia.
    + intros [_ Hlt]. simpl in Hlt.
      destruct (nth_error (goroutines p) i) as [t|] eqn:Hn.
      * apply (Hc i t Hn). unfold called.
        rewrite (@Forall_nth_error _ _ _ _ _ Hret Hn). reflexivity.
      * apply nth_error_None in Hn. lia.
  - intros q Hq. destruct (Hb q Hq) as (t & Hn & Hp & Hs).
    pose proof (@Forall_nth_error _ _ _ _ _ Hret Hn) as Ht.
    unfold answeredShape in Hs. destruct (reqAnswer q) as [err|result].
    + congruence.
    + exists (objectVersions t), result. split; [|split; [assumption | reflexivity]].
      rewrite nth_error_map, Hn. reflexivity.
Qed.

(** At the final print the aggregator has taken exactly the results of the
    answered requests. *)
Lemma received_at_print (c : settings) (l : listing) (p : process) :
  reaches c l p -> pc p = AtPrint ->
  Permutation (received p) (flat_map answered (requests p)).
Proof.
  intros Hr Hpc. destruct (at_print_quiet Hr Hpc) as (Hret & Hres & _).
  pose proof (wayInv_reaches Hr) as Hw. unfold onTheWay in Hw.
  rewrite Hres, (sending_returned Hret), !app_nil_r in Hw. exact Hw.
Qed.

Lemma sizes_at_print (c : settings) (l : listing) (p : process) :
  reaches c l p -> pc p = AtPrint ->
  sumZ BatchSize (received p) = len (allEntries l) /\
  sumZ ErrorCount (received p) = sumZ itemErrors (requests p) /\
  numObjects p = wrapInt (len (allEntries l)).
Proof.
  intros Hr Hpc. destruct (at_print_quiet Hr Hpc) as (Hret & Hres & _).
  pose proof (countInv_reaches Hr) as Hc.
  assert (Hf : flushed (pc p) = true) by (rewrite Hpc; reflexivity).
  split; [|split].
  - pose proof (cnt_sizes Hc) as Hs.
    rewrite Hres, (pendingSize_returned Hret) in Hs. simpl in Hs.
    rewrite <- (concat_dispatched Hr Hf), <- sumZ_len_concat.
    unfold dispatched. rewrite sumZ_map. lia.
  - pose proof (cnt_errors Hc) as He.
    rewrite Hres, (pendingErrors_returned Hret) in He. simpl in He. lia.
  - destruct (accInv_reaches Hr (or_intror Hf)) as [sealed Hi].
    rewrite (acc_count Hi). f_equal. f_equal.
    rewrite <- (acc_entries Hi), (flushed_remaining _ Hf), app_nil_r. reflexivity.
Qed.

(** ** C2: the two counts agree *)

(** C2. In a run that ends with the final print, the aggregator's
    [numProcessed], the sum of the [BatchSize] of the results it received,
    equals [numObjects], which counts the listed entries one by one; both
    are the number of entries of the listing (as [int]s). *)
Theorem C2_processed_equals_numObjects (c : settings) (l : listing) (p : process) :
  reaches c l p -> exited p = Some ExitOk ->
  numProcessed p = numObjects p /\
  numProcessed p = wrapInt (sumZ BatchSize (received p)) /\
  sumZ BatchSize (received p) = len (allEntries l) /\
  numObjects p = wrapInt (len (allEntries l)) /\
  exists out, stdout p = out ++ [totalLine (numObjects p)].
Proof.
  intros Hr He. pose proof (exited_ok_pc Hr He) as Hpc.
  destruct (sizes_at_print Hr Hpc) as (Hs & _ & Hn).
  pose proof (cnt_processed (countInv_reaches Hr)) as Hp.
  split; [rewrite Hp, Hs, Hn; reflexivity|].
  split; [exact Hp|]. split; [exact Hs|]. split; [exact Hn|].
  destruct (exited_ok_inv Hr He) as (q & _ & _ & _ & ->).
  exists (stdout q). reflexivity.
Qed.

Lemma C2_witness :
  numProcessed logsFinal = numObjects logsFinal /\
  numProcessed logsFinal = wrapInt (sumZ BatchSize (received logsFinal)) /\
  sumZ BatchSize (received logsFinal) = len (allEntries logsListing) /\
  numObjects logsFinal = wrapInt (len (allEntries logsListing)) /\
  exists out, stdout logsFinal = out ++ [totalLine (numObjects logsFinal)].
Proof.
  apply (@C2_processed_equals_numObjects logsSettings logsListing logsFinal).
  - exists logsSchedule. vm_compute. reflexivity.
  - vm_compute. reflexivity.
Defined.

(** ** C4: the error total *)



(** ** C6: the delete worker *)

Lemma exec_exited (c : settings) (e : event) (st : exitStatus) (p : process) :
  exec c e (exit st p) = None.
Proof. reflexivity. Qed.

(** C6. The goroutine of a batch issues one request, which goes to the
    bucket, names the (key, version id) pair of every entry of the batch and
    asks for quiet reporting; when the request fails the goroutine ends the
    process at once, without a second request and without a result; when it
    completes the goroutine sends one result, with the number of entries of
    the batch and the number of per-item failures reported, and the process
    goes on. In the process no goroutine is ever answered twice, every
    request answered is the request described for the batch of its
    goroutine, a failed request rules out a successful end, and at a
    successful end every dispatched batch has its one completed request and
    the aggregator has received one result for each. *)
Theorem C6_delete_worker (c : settings) (l : listing) (p : process) :
  reaches c l p ->
  (forall ovs answers,
     exists params,
       runGoroutine (deleteObjectVersions (bucket c) ovs) answers 0 =
       [ Requested params;
         match answers 0%nat with
         | inl err => Aborted (FailedToDelete err)
         | inr result =>
             Delivered {| BatchSize := len ovs;
                          ErrorCount := len (s3.Errors result) |}
         end ] /\
       namesBatch (bucket c) ovs params) /\
  NoDup (map reqIndex (requests p)) /\
  (forall q, In q (requests p) ->
     exists b, nth_error (dispatched p) (reqIndex q) = Some b /\
               namesBatch (bucket c) b (reqParams q)) /\
  (forall q err, In q (requests p) -> reqAnswer q = inl err ->
     exited p <> Some ExitOk /\
     (exited p = None ->
      forall res e,
        exec c (Worker (reqIndex q) res) p
        = Some (exit (ExitFatal (FailedToDelete err)) p) /\
        exec c e (exit (ExitFatal (FailedToDelete err)) p) = None)) /\
  (forall i t result,
     exited p = None -> nth_error (goroutines p) i = Some t ->
     called t = false ->
     exists p' params,
       exec c (Worker i (inr result)) p = Some p' /\
       exited p' = None /\
       nth_error (goroutines p') i
       = Some {| objectVersions := objectVersions t;
                 code := ChanSend {| BatchSize := len (objectVersions t);
                                     ErrorCount := len (s3.Errors result) |}
                                  Return |} /\
       requests p' = requests p ++ [(i, params, inr result)] /\
       namesBatch (bucket c) (objectVersions t) params) /\
  (exited p = Some ExitOk ->
   Permutation (map reqIndex (requests p)) (seq 0 (length (dispatched p))) /\
   (forall q, In q (requests p) ->
      exists b result,
        nth_error (dispatched p) (reqIndex q) = Some b /\
        namesBatch (bucket c) b (reqParams q) /\
        reqAnswer q = inr result) /\
   Permutation (received p) (flat_map answered (requests p))).
Proof.
  intros Hr. destruct (reqInv_reaches Hr) as [Ha Hb Hc].
  pose proof (countInv_reaches Hr) as Hcnt.
  split; [|split; [|split; [|split; [|split]]]].
  - intros ovs answers. exists (deleteParams (bucket c) ovs).
    split; [|apply namesBatch_deleteParams].
    rewrite deleteObjectVersions_unfold. simpl.
    destruct (answers 0%nat); reflexivity.
  - exact Ha.
  - intros q Hq. destruct (Hb q Hq) as (t & Hn & Hp & _).
    exists (objectVersions t). split.
    + unfold dispatched. rewrite nth_error_map, Hn. reflexivity.
    + rewrite Hp. apply namesBatch_deleteParams.
  - intros q err Hq Herr. split.
    + intros He. pose proof (exited_ok_pc Hr He) as Hpc.
      destruct (proj2 (requests_at_print Hr Hpc) q Hq) as (b & result & _ & _ & Hres).
      congruence.
    + intros Hal res e. split; [|reflexivity].
      destruct (Hb q Hq) as (t & Hn & _ & Hs).
      unfold answeredShape in Hs. rewrite Herr in Hs.
      unfold exec. rewrite Hal. unfold workerStep. rewrite Hn, Hs. reflexivity.
  - intros i t result Hal Hn Hcalled.
    pose proof (@Forall_nth_error _ _ _ _ _ (cnt_shape Hcnt) Hn) as Ht.
    assert (Hcall : code t = deleteObjectVersions (bucket c) (objectVersions t)).
    { unfold called in Hcalled. destruct Ht as [H|e H|err H|H]; try assumption;
        rewrite H in Hcalled; discriminate. }
    rewrite deleteObjectVersions_unfold in Hcall.
    eexists. exists (deleteParams (bucket c) (objectVersions t)).
    split; [|split; [|split; [|split]]].
    + unfold exec. rewrite Hal. unfold workerStep. rewrite Hn, Hcall. reflexivity.
    + exact Hal.
    + simpl. rewrite nth_error_setNth, Nat.eqb_refl, Hn. reflexivity.
    + reflexivity.
    + apply namesBatch_deleteParams.
  - intros He. pose proof (exited_ok_pc Hr He) as Hpc.
    destruct (requests_at_print Hr Hpc) as [H1 H2].
    split; [exact H1|]. split; [|exact (received_at_print Hr Hpc)].
    intros q Hq. destruct (H2 q Hq) as (b & result & Hn & Hp & Hres).
    exists b, result. split; [exact Hn|]. split; [|exact Hres].
    rewrite Hp. apply namesBatch_deleteParams.
Qed.

(** The run over the listing with delete markers: the request of the
    second batch, which holds a delete marker and a version, and the whole
    of what the theorem says of that run. *)
Lemma C6_witness :
  reaches logsSettings markerListing markerFinal /\
  In (1%nat,
      {| s3.Bucket := "bkt";
         s3.Delete :=
           {| types.Objects :=
                [ {| types.Key := "logs/a"; types.VersionId := "3" |};
                  {| types.Key := "logs/b"; types.VersionId := "1" |} ];
              types.Quiet := true |} |},
      answerOk)
     (requests markerFinal) /\
  received markerFinal
  = [ {| BatchSize := 2; ErrorCount := 0 |};
      {| BatchSize := 2; ErrorCount := 1 |};
      {| BatchSize := 1; ErrorCount := 0 |} ] /\
  NoDup (map reqIndex (requests markerFinal)) /\
  (forall q, In q (requests markerFinal) ->
     exists b, nth_error (dispatched markerFinal) (reqIndex q) = Some b /\
               namesBatch (bucket logsSettings) b (reqParams q)) /\
  (exited markerFinal = Some ExitOk ->
   Permutation (map reqIndex (requests markerFinal))
               (seq 0 (length (dispatched markerFinal))) /\
   (forall q, In q (requests markerFinal) ->
      exists b result,
        nth_error (dispatched markerFinal) (reqIndex q) = Some b /\
        namesBatch (bucket logsSettings) b (reqParams q) /\
        reqAnswer q = inr result) /\
   Permutation (received markerFinal)
               (flat_map answered (requests markerFinal))).
Proof.
  assert (H : reaches logsSettings markerListing markerFinal)
    by (exists markerSchedule; vm_compute; reflexivity).
  split; [exact H|].
  split; [vm_compute; right; right; left; reflexivity|].
  split; [vm_compute; reflexivity|].
  destruct (@C6_delete_worker logsSettings markerListing markerFinal H)
    as (_ & H2 & H3 & _ & _ & H6).
  split; [exact H2|]. split; [exact H3 | exact H6].
Defined.

(** ** C5: an entry outside the prefix *)

(** C5. With a non-empty prefix, when the next listed entry has a key that
    does not start with it, the main goroutine's step ends the process with
    the scope-violation error: the entry is neither appended nor counted,
    nothing is dispatched for it, the batches and the open batch hold
    exactly the entries listed before it, and nothing runs afterwards. *)
Theorem C5_scope_violation (c : settings) (l : listing) (p : process)
        (v : objectVersion) (vs : list objectVersion) (rest : listing) :
  reaches c l p -> exited p = None -> pc p = InPage (v :: vs) rest ->
  prefix c <> ""%string -> strings.HasPrefix (Key v) (prefix c) = false ->
  (forall versionId q,
     deleteVersion c (Key v) versionId q
     = exit (ExitFatal (WithoutRequestedPrefix (Key v))) q) /\
  exists p',
    exec c Main p = Some p' /\
    exited p' = Some (ExitFatal (WithoutRequestedPrefix (Key v))) /\
    batch p' = batch p /\ numObjects p' = numObjects p /\
    goroutines p' = goroutines p /\ waitGroup p' = waitGroup p /\
    (forall es, es <> [] -> execAll c es p' = None) /\
    allEntries l
    = (List.concat (dispatched p') ++ batch p') ++ v :: vs ++ allEntries rest.
Proof.
  intros Hr Hal Hpc Hne Hpre.
  assert (Hs : inScope c (Key v) = false).
  { unfold inScope. rewrite Hpre. apply String.eqb_neq in Hne. rewrite Hne.
    reflexivity. }
  split.
  - intros versionId q. now apply deleteVersion_out_of_scope.
  - eexists. split.
    + apply step_exec; [exact Hal|]. eapply step_out_of_scope; eauto.
    + simpl. repeat (split; [reflexivity|]). split.
      * intros [|e es] Hes; [congruence | reflexivity].
      * destruct (accInv_reaches Hr (or_introl Hal)) as [sealed Hi].
        pose proof (acc_entries Hi) as He. rewrite Hpc in He. simpl in He.
        pose proof (acc_dispatched Hi) as Hd. unfold finalBatch in Hd.
        rewrite Hpc in Hd. simpl in Hd. rewrite app_nil_r in Hd.
        unfold dispatched in *. simpl. rewrite Hd, <- He, <- app_assoc.
        reflexivity.
Qed.

Lemma C5_witness :
  reaches logsSettings strayListing strayState /\
  exists p',
    exec logsSettings Main strayState = Some p' /\
    exited p' = Some (ExitFatal (WithoutRequestedPrefix "c/d")) /\
    batch p' = batch strayState /\ numObjects p' = numObjects strayState /\
    goroutines p' = goroutines strayState /\
    waitGroup p' = waitGroup strayState /\
    (forall es, es <> [] -> execAll logsSettings es p' = None) /\
    allEntries strayListing
    = (List.concat (dispatched p') ++ batch p')
        ++ {| Key := "c/d"; VersionId := "7" |}
        :: [ {| Key := "logs/b"; VersionId := "1" |} ] ++ allEntries [].
Proof.
  assert (H : reaches logsSettings strayListing strayState)
    by (exists [Main; Main]; vm_compute; reflexivity).
  split; [exact H|].
  apply (@C5_scope_violation logsSettings strayListing strayState
           {| Key := "c/d"; VersionId := "7" |}
           [ {| Key := "logs/b"; VersionId := "1" |} ] [] H).
  - vm_compute. reflexivity.
  - vm_compute. reflexivity.
  - vm_compute. discriminate.
  - vm_compute. reflexivity.
Defined.

(** ** C7: a listing without entries *)

Lemma emptyInv_start (l : listing) : noEntries l -> emptyInv (start l).
Proof. intros H. constructor; simpl; auto. Qed.

Ltac emptyInv_next Hal :=
  split; [reflexivity|];
  split; [constructor; simpl; rewrite ?Hal; auto
         | unfold stepsLeft; simpl; rewrite ?Hal; simpl; try reflexivity; try lia].

Lemma emptyInv_step (c : settings) (e : event) (p p' : process) :
  emptyInv p -> exec c e p = Some p' ->
  e = Main /\ emptyInv p' /\ stepsLeft p = S (stepsLeft p').
Proof.
  intros [Hg Hres Hagg Hw Hn Hb Hrq Hout] He.
  pose proof (exec_alive _ _ _ He) as Hal. rewrite Hal in Hout.
  destruct Hout as [Hso Hpc]. apply exec_step in He.
  unfold stepsLeft at 1. rewrite Hal.
  destruct He; try rewrite H in *; simpl in Hpc;
    try (rewrite Hg in *; destruct i; discriminate);
    try congruence.
  - emptyInv_next Hal.
  - inversion Hpc as [|? ? [page [Hp _]] _]; discriminate.
  - inversion Hpc as [|? ? [page' [Hp Hnil]] Hrest]; subst.
    injection Hp as <-. rewrite Hnil. emptyInv_next Hal.
  - destruct Hpc as [_ Hrest]. emptyInv_next Hal.
  - destruct Hpc; discriminate.
  - destruct Hpc; discriminate.
  - destruct Hpc; discriminate.
  - rewrite Hb in H0. unfold len in H0. simpl in H0. lia.
  - emptyInv_next Hal.
  - emptyInv_next Hal.
  - emptyInv_next Hal. rewrite Hso, Hn. split; reflexivity.
Qed.

Lemma emptyInv_progress (c : settings) (p : process) :
  emptyInv p -> exited p = None -> exists p', exec c Main p = Some p'.
Proof.
  intros [Hg Hres Hagg Hw Hn Hb Hrq Hout] Hal. rewrite Hal in Hout.
  destruct Hout as [_ Hpc]. unfold exec. rewrite Hal. unfold mainStep.
  destruct (pc p) as [[|[err|page] rest]|[|v vs] rest| | |];
    try (eexists; reflexivity).
  rewrite Hw. simpl. eexists; reflexivity.
Qed.

Lemma emptyInv_run (c : settings) (n : nat) :
  forall p, emptyInv p -> stepsLeft p = n ->
  exists p', execAll c (repeat Main n) p = Some p' /\
             exited p' = Some ExitOk /\ emptyInv p'.
Proof.
  induction n as [|n IH]; intros p Hinv Hn.
  - exists p. split; [reflexivity|]. split; [|exact Hinv].
    pose proof (emp_out Hinv) as Ho. unfold stepsLeft in Hn.
    destruct (exited p) as [st|].
    + destruct Ho as [-> _]. reflexivity.
    + destruct (pc p); lia.
  - assert (Hal : exited p = None).
    { unfold stepsLeft in Hn. destruct (exited p); [discriminate | reflexivity]. }
    destruct (@emptyInv_progress c _ Hinv Hal) as [p1 H1].
    destruct (@emptyInv_step _ _ _ _ Hinv H1) as (_ & Hinv1 & Hs).
    destruct (IH p1 Hinv1 ltac:(lia)) as (p' & Hrun & Hex & Hinv').
    exists p'. simpl. rewrite H1. auto.
Qed.

Lemma emptyInv_schedule (c : settings) (es : list event) :
  forall p p', emptyInv p -> execAll c es p = Some p' ->
  es = repeat Main (length es) /\ emptyInv p' /\
  stepsLeft p = (length es + stepsLeft p')%nat.
Proof.
  induction es as [|e es IH]; intros p p' Hinv Hrun; simpl in Hrun.
  - injection Hrun as <-. auto.
  - destruct (exec c e p) as [p1|] eqn:H1; [|discriminate].
    destruct (@emptyInv_step _ _ _ _ Hinv H1) as (-> & Hinv1 & Hs).
    destruct (IH p1 p' Hinv1 Hrun) as (Hes & Hinv' & Hs').
    simpl. rewrite <- Hes. split; [reflexivity|]. split; [assumption | lia].
Qed.

(** C7. When the listing yields no entry, the run is that of the main
    goroutine alone: after [2 * pages + 4] steps the process has exited
    successfully, having printed only the line [total number of objects: 0]
    and started no goroutine; no schedule does anything else, none is
    longer, and every state on the way can run on to that end. *)
Theorem C7_no_entries (c : settings) (l : listing) :
  noEntries l ->
  (exists p,
     execAll c (repeat Main (2 * length l + 4)) (start l) = Some p /\
     exited p = Some ExitOk /\
     stdout p = ["total number of objects: 0"%string] /\
     dispatched p = [] /\ requests p = []) /\
  (forall es p,
     execAll c es (start l) = Some p ->
     es = repeat Main (length es) /\ (length es <= 2 * length l + 4)%nat /\
     dispatched p = [] /\ requests p = [] /\
     (forall st, exited p = Some st ->
        st = ExitOk /\ stdout p = ["total number of objects: 0"%string]) /\
     (exited p = None ->
      exists n p', execAll c (repeat Main n) p = Some p' /\
                   exited p' = Some ExitOk)).
Proof.
  intros Hl. pose proof (emptyInv_start Hl) as H0. split.
  - destruct (@emptyInv_run c (2 * length l + 4) (start l) H0 eq_refl)
      as (p & Hrun & Hex & Hinv).
    exists p. split; [exact Hrun|]. split; [exact Hex|].
    pose proof (emp_out Hinv) as Ho. rewrite Hex in Ho.
    unfold dispatched. rewrite (emp_goroutines Hinv), (emp_requests Hinv).
    destruct Ho as [_ ->]. auto.
  - intros es p Hrun.
    destruct (@emptyInv_schedule c es _ _ H0 Hrun) as (Hes & Hinv & Hs).
    split; [exact Hes|]. split.
    + change (stepsLeft (start l)) with (2 * length l + 4)%nat in Hs. lia.
    + unfold dispatched. rewrite (emp_goroutines Hinv), (emp_requests Hinv).
      split; [reflexivity|]. split; [reflexivity|]. split.
      * intros st Hst. pose proof (emp_out Hinv) as Ho. rewrite Hst in Ho.
        exact Ho.
      * intros Hal.
        destruct (@emptyInv_run c (stepsLeft p) p Hinv eq_refl)
          as (p' & Hrun' & Hex & _).
        exists (stepsLeft p), p'. auto.
Qed.

Lemma C7_witness :
  noEntries [inr {| s3.Versions := []; s3.DeleteMarkers := [] |}] /\
  exists p,
    execAll logsSettings (repeat Main 6)
            (start [inr {| s3.Versions := []; s3.DeleteMarkers := [] |}]) = Some p /\
    exited p = Some ExitOk /\
    stdout p = ["total number of objects: 0"%string] /\
    dispatched p = [] /\ requests p = [].
Proof.
  assert (H : noEntries [inr {| s3.Versions := []; s3.DeleteMarkers := [] |}]).
  { constructor; [|constructor]. eexists. split; reflexivity. }
  split; [exact H|].
  exact (proj1 (@C7_no_entries logsSettings
                  [inr {| s3.Versions := []; s3.DeleteMarkers := [] |}] H)).
Defined.

(** ** C8: the normalized prefix *)

Lemma append_assoc (s1 s2 s3 : string) :
  String.append (String.append s1 s2) s3 = String.append s1 (String.append s2 s3).
Proof. induction s1 as [|a s1 IH]; simpl; [reflexivity | now rewrite IH]. Qed.

Lemma append_empty_r (s : string) : String.append s "" = s.
Proof. induction s as [|a s IH]; simpl; [reflexivity | now rewrite IH]. Qed.

Lemma trimLeftByte_decomp (s : string) :
  exists a, s = String.append (slashes a) (strings.trimLeftByte s slash) /\
            headIs slash (strings.trimLeftByte s slash) = false.
Proof.
  induction s as [|x s IH]; simpl.
  - exists 0%nat. split; reflexivity.
  - destruct (Ascii.eqb_spec x slash) as [->|Hx].
    + destruct IH as (a & Hs & Hh). exists (S a). simpl.
      split; [now rewrite <- Hs | exact Hh].
    + exists 0%nat. simpl. split; [reflexivity|]. now apply Ascii.eqb_neq.
Qed.

Lemma trimRightByte_decomp (s : string) :
  exists b, s = String.append (strings.trimRightByte s slash) (slashes b) /\
            lastIs slash (strings.trimRightByte s slash) = false.
Proof.
  induction s as [|x s IH]; simpl.
  - exists 0%nat. split; reflexivity.
  - destruct IH as (b & Hs & Hl).
    destruct (strings.trimRightByte s slash) as [|y t] eqn:Ht.
    + simpl in Hs. destruct (Ascii.eqb_spec x slash) as [->|Hx].
      * exists (S b). simpl. split; [now rewrite <- Hs | reflexivity].
      * exists b. simpl. split; [now rewrite <- Hs | now apply Ascii.eqb_neq].
    + exists b. split; [|exact Hl].
      change (String.append (String x (String y t)) (slashes b))
        with (String x (String.append (String y t) (slashes b))).
      now rewrite <- Hs.
Qed.

Lemma lastIs_trimLeftByte (t : string) :
  lastIs slash t = false -> lastIs slash (strings.trimLeftByte t slash) = false.
Proof.
  induction t as [|x t IH]; intros H; [reflexivity|].
  simpl. destruct (Ascii.eqb_spec x slash) as [->|Hx]; [|exact H].
  apply IH. destruct t as [|y t]; [discriminate | exact H].
Qed.

Lemma TrimByte_trimmedOf (s : string) : trimmedOf s (strings.TrimByte s slash).
Proof.
  unfold trimmedOf, strings.TrimByte.
  destruct (trimRightByte_decomp s) as (b & Hs & Hl).
  destruct (trimLeftByte_decomp (strings.trimRightByte s slash)) as (a & Ht & Hh).
  exists a, b. split; [|split].
  - rewrite <- append_assoc, <- Ht. exact Hs.
  - exact Hh.
  - now apply lastIs_trimLeftByte.
Qed.

Lemma trimRightByte_slashes (b : nat) : strings.trimRightByte (slashes b) slash = "".
Proof. induction b as [|b IH]; simpl; [reflexivity | now rewrite IH]. Qed.

Lemma trimRightByte_append_slashes (t : string) (b : nat) :
  strings.trimRightByte (String.append t (slashes b)) slash
  = strings.trimRightByte t slash.
Proof.
  induction t as [|x t IH]; simpl.
  - apply trimRightByte_slashes.
  - rewrite IH. reflexivity.
Qed.

Lemma trimRightByte_fixed (t : string) :
  lastIs slash t = false -> strings.trimRightByte t slash = t.
Proof.
  induction t as [|x t IH]; intros H; [reflexivity|].
  destruct t as [|y t].
  - simpl in *. rewrite H. reflexivity.
  - change (lastIs slash (String x (String y t))) with (lastIs slash (String y t)) in H.
    change (strings.trimRightByte (String x (String y t)) slash)
      with (match strings.trimRightByte (String y t) slash with
            | EmptyString => if Ascii.eqb x slash then EmptyString
                             else String x EmptyString
            | u => String x u
            end).
    rewrite (IH H). reflexivity.
Qed.

Lemma trimLeftByte_slashes_append (a : nat) (t : string) :
  strings.trimLeftByte (String.append (slashes a) t) slash
  = strings.trimLeftByte t slash.
Proof. induction a as [|a IH]; simpl; [reflexivity | exact IH]. Qed.

Lemma trimLeftByte_fixed (t : string) :
  headIs slash t = false -> strings.trimLeftByte t slash = t.
Proof. destruct t as [|x t]; simpl; intros H; [reflexivity | now rewrite H]. Qed.

Lemma lastIs_append (s t : string) :
  t <> ""%string -> lastIs slash (String.append s t) = lastIs slash t.
Proof.
  intros Ht. induction s as [|x s IH]; [reflexivity|].
  simpl String.append.
  destruct (String.append s t) as [|y u] eqn:E.
  - destruct s; simpl in E; [contradiction | discriminate].
  - exact IH.
Qed.

(** The description determines the trimmed value: it is what
    [strings.Trim] returns. *)
Lemma trimmedOf_TrimByte (s core : string) :
  trimmedOf s core -> strings.TrimByte s slash = core.
Proof.
  intros (a & b & -> & Hh & Hl). unfold strings.TrimByte.
  rewrite <- append_assoc, trimRightByte_append_slashes.
  destruct core as [|x core].
  - rewrite append_empty_r, trimRightByte_slashes. reflexivity.
  - rewrite trimRightByte_fixed.
    + rewrite trimLeftByte_slashes_append. now apply trimLeftByte_fixed.
    + rewrite lastIs_append; [exact Hl | discriminate].
Qed.

(** C8. The prefix that a successful set-up hands to the listing request
    and to the scope check is the [-prefix] value with all its leading and
    trailing slashes trimmed and, when something is left, one slash
    appended; the trimmed value is the only one the description allows. *)
Theorem C8_normalized_prefix (f : flags) (loaded : option sdkError) (c : settings) :
  setup f loaded = inr c ->
  exists core,
    trimmedOf (fPrefix f) core /\
    (forall core', trimmedOf (fPrefix f) core' -> core' = core) /\
    prefix c = describedPrefix core /\
    s3.Prefix (listObjectVersionsParams c) = describedPrefix core /\
    forall key,
      inScope c key
      = (String.eqb core "" || strings.HasPrefix key (String.append core "/")).
Proof.
  intros Hs. exists (strings.TrimByte (fPrefix f) slash).
  assert (Hp : prefix c = describedPrefix (strings.TrimByte (fPrefix f) slash)).
  { unfold setup in Hs.
    destruct (String.eqb (fBucket f) ""); [discriminate|].
    destruct (fBatchSize f >? MaxInt); [discriminate|].
    destruct loaded; [discriminate|]. injection Hs as <-. simpl.
    unfold normalizePrefix, describedPrefix. cbv zeta.
    destruct (String.eqb_spec (strings.TrimByte (fPrefix f) slash) "");
      [assumption | reflexivity]. }
  split; [apply TrimByte_trimmedOf|]. split; [|split; [|split]].
  - intros core' H'. rewrite (trimmedOf_TrimByte H').
    reflexivity.
  - exact Hp.
  - exact Hp.
  - intros key. unfold inScope. rewrite Hp. unfold describedPrefix.
    destruct (String.eqb_spec (strings.TrimByte (fPrefix f) slash) "") as [E|E].
    + rewrite E. reflexivity.
    + simpl.
      assert (Hne : String.eqb (String.append (strings.TrimByte (fPrefix f) slash) "/") ""
                    = false).
      { apply String.eqb_neq.
        destruct (strings.TrimByte (fPrefix f) slash); [contradiction | discriminate]. }
      rewrite Hne. simpl. rewrite negb_involutive. reflexivity.
Qed.

Lemma C8_witness :
  setup logsFlags None = inr logsSettings /\
  exists core,
    trimmedOf (fPrefix logsFlags) core /\
    (forall core', trimmedOf (fPrefix logsFlags) core' -> core' = core) /\
    prefix logsSettings = describedPrefix core /\
    s3.Prefix (listObjectVersionsParams logsSettings) = describedPrefix core /\
    forall key,
      inScope logsSettings key
      = (String.eqb core "" || strings.HasPrefix key (String.append core "/")).
Proof.
  split; [reflexivity|].
  apply (@C8_normalized_prefix logsFlags None logsSettings). reflexivity.
Defined.

(** ** The step that ended the process *)

Lemma last_step (c : settings) (l : listing) (p : process) :
  reaches c l p -> exited p <> None ->
  exists q e, reaches c l q /\ exited q = None /\ step c e q p.
Proof.
  intros [es H] Hex. destruct es as [|e es _] using rev_ind.
  - simpl in H. injection H as <-. contradiction Hex. reflexivity.
  - rewrite execAll_app in H.
    destruct (execAll c es (start l)) as [q|] eqn:Hq; [|discriminate].
    simpl in H. destruct (exec c e q) as [q'|] eqn:He; [|discriminate].
    injection H as <-. exists q, e.
    split; [exists es; exact Hq|]. split; [exact (exec_alive _ _ _ He)|].
    now apply exec_step.
Qed.

Lemma step_exit_same (c : settings) (e : event) (q p : process) :
  step c e q p -> exited q = None -> exited p <> None ->
  goroutines p = goroutines q /\ flushed (pc p) = flushed (pc q).
Proof.
  intros Hs Hal Hex.
  destruct Hs; simpl in *; try congruence;
    try (rewrite H; split; reflexivity); split; reflexivity.
Qed.

(** ** C9: batches of capacity 0 *)




(** ** The identifiers named at the final print *)

Lemma flat_map_ext_in {A B : Type} (f g : A -> list B) (l : list A) :
  (forall x, In x l -> f x = g x) -> flat_map f l = flat_map g l.
Proof.
  induction l as [|x l IH]; intros H; simpl; [reflexivity|].
  rewrite (H x (or_introl eq_refl)), IH; [reflexivity|].
  intros y Hy. apply H. right. exact Hy.
Qed.

Lemma flat_map_map {A B C : Type} (f : B -> list C) (g : A -> B) (l : list A) :
  flat_map f (map g l) = flat_map (fun x => f (g x)) l.
Proof. induction l as [|x l IH]; simpl; congruence. Qed.

(** Going through a list by index is going through the list. *)
Lemma flat_map_by_index {A B : Type} (g : A -> list B) (bs : list A) :
  flat_map (fun i => match nth_error bs i with
                     | Some b => g b
                     | None => []
                     end)
           (seq 0 (length bs))
  = flat_map g bs.
Proof.
  induction bs as [|x bs IH] using rev_ind; [reflexivity|].
  rewrite length_app. simpl length. rewrite Nat.add_1_r, seq_S, !flat_map_app.
  simpl. rewrite nth_error_app2, Nat.sub_diag by lia. simpl.
  rewrite !app_nil_r. f_equal. rewrite <- IH. apply flat_map_ext_in.
  intros i Hi. apply in_seq in Hi.
  rewrite nth_error_app1 by lia. reflexivity.
Qed.

Lemma map_concat_flat_map {A B : Type} (f : A -> B) (bs : list (list A)) :
  flat_map (map f) bs = map f (List.concat bs).
Proof.
  induction bs as [|b bs IH]; simpl; [reflexivity|].
  rewrite IH, map_app. reflexivity.
Qed.

(** The identifiers a request names. *)
Lemma requestObjects_at_print (c : settings) (l : listing) (p : process) :
  reaches c l p -> pc p = AtPrint ->
  Permutation
    (flat_map (fun q => types.Objects (s3.Delete (reqParams q))) (requests p))
    (map ObjectIdentifierOf (allEntries l)).
Proof.
  intros Hr Hpc. destruct (requests_at_print Hr Hpc) as [Hperm Hall].
  assert (Hf : flushed (pc p) = true) by (rewrite Hpc; reflexivity).
  rewrite <- (concat_dispatched Hr Hf), <- map_concat_flat_map.
  rewrite <- (flat_map_by_index (map ObjectIdentifierOf) (dispatched p)).
  rewrite <- Hperm, flat_map_map.
  rewrite (@flat_map_ext_in _ _
             (fun q => types.Objects (s3.Delete (reqParams q)))
             (fun q => match nth_error (dispatched p) (reqIndex q) with
                       | Some b => map ObjectIdentifierOf b
                       | None => []
                       end)); [reflexivity|].
  intros q Hq. destruct (Hall q Hq) as (b & result & Hn & Hp & _).
  rewrite Hn, Hp. reflexivity.
Qed.

(** At the final print every listed entry is named, by its key and its
    version id, in a request. *)
Lemma named_at_print (c : settings) (l : listing) (p : process)
      (v : objectVersion) :
  reaches c l p -> pc p = AtPrint -> In v (allEntries l) ->
  exists q o,
    In q (requests p) /\ In o (types.Objects (s3.Delete (reqParams q))) /\
    types.Key o = Key v /\ types.VersionId o = VersionId v.
Proof.
  intros Hr Hpc Hv.
  assert (Hin : In (ObjectIdentifierOf v) (map ObjectIdentifierOf (allEntries l)))
    by (apply in_map; exact Hv).
  apply (Permutation_in _ (Permutation_sym (requestObjects_at_print Hr Hpc)))
    in Hin.
  apply in_flat_map in Hin. destruct Hin as (q & Hq & Ho).
  exists q, (ObjectIdentifierOf v). repeat split; assumption.
Qed.

(** ** C10: a prefix of slashes only *)

Lemma onlySlashes_slashes (s : string) :
  onlySlashes s = true -> s = slashes (String.length s).
Proof.
  induction s as [|x s IH]; simpl; intros H; [reflexivity|].
  apply andb_prop in H. destruct H as [Hx Hs].
  apply Ascii.eqb_eq in Hx. subst x. now rewrite <- IH.
Qed.

Lemma normalizePrefix_slashes (s : string) :
  onlySlashes s = true -> normalizePrefix s = ""%string.
Proof.
  intros H. unfold normalizePrefix. cbv zeta.
  assert (E : strings.TrimByte s slash = ""%string).
  { apply trimmedOf_TrimByte. exists (String.length s), 0%nat.
    split; [|split; reflexivity]. simpl. rewrite append_empty_r.
    now apply onlySlashes_slashes. }
  rewrite E. reflexivity.
Qed.

(** C10. When the [-prefix] value consists of slashes only, the
    normalized prefix is empty: the listing request carries the empty
    prefix, every key passes the scope check, no run ends with the
    scope-violation error, every listed entry is appended and counted. A
    run that exhausts the listing has dispatched, in listing order, every
    version and every delete marker of every page, and a run that ends
    successfully has named each of them, by key and version id, in a delete
    request. *)
Theorem C10_prefix_of_slashes (f : flags) (loaded : option sdkError)
        (c : settings) (l : listing) (p : process) :
  onlySlashes (fPrefix f) = true -> setup f loaded = inr c -> reaches c l p ->
  prefix c = ""%string /\
  s3.Prefix (listObjectVersionsParams c) = ""%string /\
  (forall key, inScope c key = true) /\
  (forall key, exited p <> Some (ExitFatal (WithoutRequestedPrefix key))) /\
  (forall v vs rest,
     exited p = None -> pc p = InPage (v :: vs) rest ->
     exists p',
       exec c Main p = Some p' /\ exited p' = None /\
       numObjects p' = wrapInt (numObjects p + 1) /\
       List.concat (dispatched p') ++ batch p'
       = (List.concat (dispatched p) ++ batch p) ++ [v]) /\
  (flushed (pc p) = true ->
   exists pages,
     l = map inr pages /\
     List.concat (dispatched p) = listedInOrder pages /\
     (forall page v,
        In page pages ->
        In v (s3.Versions page) \/ In v (s3.DeleteMarkers page) ->
        exists b, In b (dispatched p) /\ In v b) /\
     (exited p = Some ExitOk ->
      forall page v,
        In page pages ->
        In v (s3.Versions page) \/ In v (s3.DeleteMarkers page) ->
        exists q o,
          In q (requests p) /\
          In o (types.Objects (s3.Delete (reqParams q))) /\
          types.Key o = Key v /\ types.VersionId o = VersionId v)).
Proof.
  intros Hsl Hs Hr.
  assert (Hp : prefix c = ""%string).
  { unfold setup in Hs.
    destruct (String.eqb (fBucket f) ""); [discriminate|].
    destruct (fBatchSize f >? MaxInt); [discriminate|].
    destruct loaded; [discriminate|]. injection Hs as <-. simpl.
    now apply normalizePrefix_slashes. }
  assert (Hin : forall key, inScope c key = true).
  { intros key. unfold inScope. rewrite Hp. reflexivity. }
  split; [exact Hp|]. split; [exact Hp|]. split; [exact Hin|].
  split; [|split].
  - intros key Hex.
    destruct (@last_step c l p Hr) as (q & e & Hq & Hal & Hst); [congruence|].
    pose proof (cnt_shape (countInv_reaches Hq)) as Hsh.
    destruct Hst; simpl in Hex; try congruence;
      try (rewrite Hin in *; discriminate).
    pose proof (@Forall_nth_error _ _ _ _ _ Hsh H) as Ht.
    destruct Ht as [E|x E|err E|E]; rewrite E in H0; try discriminate.
    injection H0 as <-. discriminate.
  - intros v vs rest Hal Hpc.
    unfold exec. rewrite Hal. unfold mainStep. rewrite Hpc.
    eexists. split; [reflexivity|].
    rewrite (@deleteVersion_in_scope _ _ _ _ (Hin (Key v))), objectVersion_eta.
    cbv zeta. unfold dispatched.
    destruct (len (batch (appended v (setPc (InPage vs rest) p))) =? batchSize c);
      simpl.
    + split; [exact Hal|]. split; [reflexivity|].
      rewrite map_app, List.concat_app. simpl.
      rewrite !app_nil_r, app_assoc. reflexivity.
    + split; [exact Hal|]. split; [reflexivity|].
      rewrite app_assoc. reflexivity.
  - intros Hf. destruct (pages_reaches Hr) as [pages Hpg].
    assert (Hah : pagesAhead (pc p) = [])
      by (destruct (pc p); try discriminate; reflexivity).
    rewrite Hah, app_nil_r in Hpg. exists pages.
    pose proof (concat_dispatched Hr Hf) as Hc.
    assert (Hall : allEntries l = listedInOrder pages)
      by (rewrite Hpg; apply allEntries_listed).
    rewrite Hall in Hc.
    split; [exact Hpg|]. split; [exact Hc|]. split.
    + intros page v Hpage Hv.
      pose proof (@In_listedInOrder pages page v Hpage Hv) as Hl.
      rewrite <- Hc in Hl. apply in_concat in Hl.
      destruct Hl as (b & Hb & Hvb). exists b. split; assumption.
    + intros Hex page v Hpage Hv.
      apply (@named_at_print c l p v Hr (exited_ok_pc Hr Hex)).
      rewrite Hall. exact (@In_listedInOrder pages page v Hpage Hv).
Qed.

(** The run with [-prefix ///] over the listing with delete markers: its
    batch holds the versions and the delete markers of both pages, and its
    request names them. *)
Lemma C10_witness :
  onlySlashes (fPrefix slashFlags) = true /\
  setup slashFlags None = inr zeroSettings /\
  reaches zeroSettings markerListing slashFinal /\
  dispatched slashFinal = [markerEntries] /\
  map (fun q => map pairOfId (types.Objects (s3.Delete (reqParams q))))
      (requests slashFinal)
  = [ [ ("logs/a", "1"); ("logs/a", "2"); ("logs/a", "3");
        ("logs/b", "1"); ("logs/c", "9") ] ]%string /\
  prefix zeroSettings = ""%string /\
  s3.Prefix (listObjectVersionsParams zeroSettings) = ""%string /\
  (forall key, inScope zeroSettings key = true) /\
  (forall key, exited slashFinal <> Some (ExitFatal (WithoutRequestedPrefix key))) /\
  (forall v vs rest,
     exited slashFinal = None -> pc slashFinal = InPage (v :: vs) rest ->
     exists p',
       exec zeroSettings Main slashFinal = Some p' /\ exited p' = None /\
       numObjects p' = wrapInt (numObjects slashFinal + 1) /\
       List.concat (dispatched p') ++ batch p'
       = (List.concat (dispatched slashFinal) ++ batch slashFinal) ++ [v]) /\
  (flushed (pc slashFinal) = true ->
   exists pages,
     markerListing = map inr pages /\
     List.concat (dispatched slashFinal) = listedInOrder pages /\
     (forall page v,
        In page pages ->
        In v (s3.Versions page) \/ In v (s3.DeleteMarkers page) ->
        exists b, In b (dispatched slashFinal) /\ In v b) /\
     (exited slashFinal = Some ExitOk ->
      forall page v,
        In page pages ->
        In v (s3.Versions page) \/ In v (s3.DeleteMarkers page) ->
        exists q o,
          In q (requests slashFinal) /\
          In o (types.Objects (s3.Delete (reqParams q))) /\
          types.Key o = Key v /\ types.VersionId o = VersionId v)).
Proof.
  split; [reflexivity|]. split; [reflexivity|].
  assert (H : reaches zeroSettings markerListing slashFinal)
    by (exists slashSchedule; vm_compute; reflexivity).
  split; [exact H|]. split; [vm_compute; reflexivity|].
  split; [vm_compute; reflexivity|].
  apply (@C10_prefix_of_slashes slashFlags None zeroSettings markerListing
           slashFinal).
  - reflexivity.
  - reflexivity.
  - exact H.
Defined.

(** ** No deadlock *)

Lemma busy_task (gs : list task) :
  sumZ busy gs <> 0 -> exists i t, nth_error gs i = Some t /\ code t <> Return.
Proof.
  induction gs as [|t gs IH]; simpl; intros H; [contradiction H; reflexivity|].
  destruct (code t) eqn:E.
  - unfold busy at 1 in H. rewrite E in H.
    destruct IH as (i & t' & Hn & Hc); [lia|]. exists (S i), t'. auto.
  - exists 0%nat, t. split; [reflexivity | congruence].
  - exists 0%nat, t. split; [reflexivity | congruence].
  - exists 0%nat, t. split; [reflexivity | congruence].
Qed.

(** A live process can always take a step: the main goroutine only blocks
    in [waitGroup.Wait()], and then a worker or the aggregator can run. *)
Lemma live_can_step (c : settings) (l : listing) (p : process) :
  reaches c l p -> exited p = None -> exists e p', exec c e p = Some p'.
Proof.
  intros Hr Hal. unfold exec. rewrite Hal.
  destruct (mainStep c p) as [p'|] eqn:Hm;
    [exists Main, p'; reflexivity|].
  assert (Hw : waitGroup p <> 0).
  { unfold mainStep in Hm.
    destruct (pc p) as [[|[err|page] rest]|[|v vs] rest| | |]; try discriminate.
    destruct (Z.eqb_spec (waitGroup p) 0); [discriminate | assumption]. }
  pose proof (countInv_reaches Hr) as Hc.
  pose proof (cnt_wait Hc) as Hcw. unfold aggPending in Hcw.
  destruct (aggregator p) eqn:Ha.
  - destruct (results p) as [|r rest] eqn:Hres.
    + change (len (@nil deleteBatchResult)) with 0 in Hcw.
      destruct (@busy_task (goroutines p)) as (i & t & Hn & Hcode); [lia|].
      pose proof (@Forall_nth_error _ _ _ _ _ (cnt_shape Hc) Hn) as Ht.
      exists (Worker i answerOk). unfold workerStep. rewrite Hn, Hres.
      destruct Ht as [E|x E|err E|E]; rewrite E.
      * rewrite deleteObjectVersions_unfold. eexists. reflexivity.
      * eexists. reflexivity.
      * eexists. reflexivity.
      * contradiction.
    + exists Aggregator. unfold aggregatorStep. rewrite Ha, Hres.
      eexists. reflexivity.
  - exists Aggregator. unfold aggregatorStep. rewrite Ha.
    destruct (waitGroup p - 1 <? 0); eexists; reflexivity.
Qed.

(** * Further properties of the program *)

(** ** Set-up *)

(** X1. For a [-batch] value in the range of [uint], set-up succeeds
    exactly when the bucket is given, the value is at most [MaxInt] and the
    SDK configuration loads; the settings then carry the flag values
    unchanged, the conversion [int( *fBatchSize)] being exact. A missing
    bucket is reported whatever the other flags are, and a configuration
    error only after the two flag checks have passed. *)
Theorem X1_setup_outcomes (f : flags) (loaded : option sdkError) :
  0 <= fBatchSize f < 2 ^ intBits ->
  (forall c,
     setup f loaded = inr c <->
     (fBucket f <> ""%string /\ fBatchSize f <= MaxInt /\ loaded = None /\
      c = {| prefix := normalizePrefix (fPrefix f); bucket := fBucket f;
             batchSize := fBatchSize f; region := fRegion f |})) /\
  (setup f loaded = inl UsageExit <-> fBucket f = ""%string) /\
  (forall err,
     setup f loaded = inl (UnableToLoadConfig err) <->
     (fBucket f <> ""%string /\ fBatchSize f <= MaxInt /\ loaded = Some err)).
Proof.
  intros Hu. unfold setup.
  destruct (String.eqb_spec (fBucket f) "") as [E|E].
  - split; [|split].
    + intros c. split; [discriminate | intros [H _]; contradiction].
    + split; auto.
    + intros err. split; [discriminate | intros [H _]; contradiction].
  - destruct (fBatchSize f >? MaxInt) eqn:G.
    + apply Z.gtb_lt in G. split; [|split].
      * intros c. split; [discriminate | intros (_ & H & _); lia].
      * split; [discriminate | contradiction].
      * intros err. split; [discriminate | intros (_ & H & _); lia].
    + pose proof (Zgt_cases (fBatchSize f) MaxInt) as G'. rewrite G in G'.
      assert (Hw : wrapInt (fBatchSize f) = fBatchSize f).
      { apply wrapInt_small. unfold MinInt, intBits. simpl Z.sub. lia. }
      rewrite Hw. split; [|split].
      * intros c. destruct loaded as [err|].
        -- split; [discriminate | intros (_ & _ & H & _); discriminate].
        -- split.
           ++ intros H. injection H as <-. auto.
           ++ intros (_ & _ & _ & ->). reflexivity.
      * destruct loaded; split; try discriminate; contradiction.
      * intros err. destruct loaded as [err'|].
        -- split.
           ++ intros H. injection H as ->. auto.
           ++ intros (_ & _ & H). injection H as ->. reflexivity.
        -- split; [discriminate | intros (_ & _ & H); discriminate].
Qed.

Lemma X1_witness :
  0 <= fBatchSize logsFlags < 2 ^ intBits /\
  setup logsFlags None = inr logsSettings.
Proof.
  assert (H : 0 <= fBatchSize logsFlags < 2 ^ intBits)
    by (split; [discriminate | reflexivity]).
  split; [exact H|].
  apply (proj1 (@X1_setup_outcomes logsFlags None H) logsSettings).
  split; [discriminate|]. split; [discriminate|]. split; reflexivity.
Defined.

(** ** The normalized prefix *)

Lemma slashes_add (a b : nat) :
  String.append (slashes a) (slashes b) = slashes (a + b).
Proof. induction a as [|a IH]; simpl; [reflexivity | now rewrite IH]. Qed.

Lemma trimmedOf_surround (s core : string) (a b : nat) :
  trimmedOf s core ->
  trimmedOf (String.append (slashes a) (String.append s (slashes b))) core.
Proof.
  intros (a' & b' & -> & Hh & Hl). exists (a + a')%nat, (b' + b)%nat.
  split; [|split; assumption].
  rewrite <- !slashes_add, !append_assoc. reflexivity.
Qed.

Lemma normalizePrefix_described (s core : string) :
  trimmedOf s core -> normalizePrefix s = describedPrefix core.
Proof.
  intros H. unfold normalizePrefix, describedPrefix. cbv zeta.
  rewrite (trimmedOf_TrimByte H).
  destruct (String.eqb_spec core ""); [assumption | reflexivity].
Qed.

(** X2. Normalizing the prefix is idempotent, and slashes added before or
    after a [-prefix] value do not change the normalized prefix: ["logs"],
    ["/logs"] and ["logs///"] select the same keys. *)
Theorem X2_normalizePrefix_stable (s : string) (a b : nat) :
  normalizePrefix (normalizePrefix s) = normalizePrefix s /\
  normalizePrefix (String.append (slashes a) (String.append s (slashes b)))
  = normalizePrefix s.
Proof.
  pose proof (TrimByte_trimmedOf s) as Ht.
  set (core := strings.TrimByte s slash) in *.
  rewrite (normalizePrefix_described Ht). split.
  - unfold describedPrefix at 1 2.
    destruct (String.eqb_spec core "") as [E|E]; [reflexivity|].
    assert (Hc : trimmedOf (String.append core "/") core).
    { destruct Ht as (_ & _ & _ & Hh & Hl).
      exists 0%nat, 1%nat. split; [reflexivity | split; assumption]. }
    rewrite (normalizePrefix_described Hc). unfold describedPrefix.
    destruct (String.eqb_spec core ""); [contradiction | reflexivity].
  - apply normalizePrefix_described. now apply trimmedOf_surround.
Qed.

(** ** What a delete request may name *)

Lemma HasPrefix_iff (s p : string) :
  strings.HasPrefix s p = true <-> exists rest, s = String.append p rest.
Proof.
  unfold strings.HasPrefix. revert s.
  induction p as [|a p IH]; intros s.
  - split; [intros _; exists s; reflexivity | intros _; destruct s; reflexivity].
  - destruct s as [|b s]; simpl;
      [split; [discriminate | intros [r H]; discriminate]|].
    destruct (Ascii.ascii_dec a b) as [->|Hab].
    + rewrite IH. split; intros [r H]; exists r; [now rewrite H | now injection H].
    + split; [discriminate | intros [r H]; injection H as H1 _; congruence].
Qed.

Lemma inScope_iff (c : settings) (key : string) :
  inScope c key = true <->
  (prefix c = ""%string \/ exists rest, key = String.append (prefix c) rest).
Proof.
  unfold inScope. rewrite <- HasPrefix_iff.
  destruct (String.eqb_spec (prefix c) "") as [E|E];
    destruct (strings.HasPrefix key (prefix c)); simpl;
    split; auto; intros [H|H]; congruence.
Qed.

Lemma safeInv_start (c : settings) (l : listing) : safeInv c l (start l).
Proof. constructor; simpl; auto. apply incl_refl. Qed.

Lemma safeInv_step (c : settings) (l : listing) (e : event) (p p' : process) :
  safeInv c l p -> step c e p p' -> safeInv c l p'.
Proof.
  intros [Hd Hb Hr] Hs.
  destruct Hs; try rewrite H in Hr; simpl in Hr;
    try (constructor; simpl; auto;
         try (match goal with H : pc _ = _ |- _ => rewrite H end; exact Hr);
         fail).
  - (* out of scope *)
    constructor; simpl; auto. intros x Hx. apply Hr. right. exact Hx.
  - (* append *)
    constructor; simpl; auto.
    + apply Forall_app. split; [assumption|]. constructor; [|constructor].
      split; [assumption | apply Hr; left; reflexivity].
    + intros x Hx. apply Hr. right. exact Hx.
  - (* seal *)
    constructor; simpl; auto.
    + unfold dispatched in *. simpl. rewrite map_app, List.concat_app. simpl.
      rewrite app_nil_r. apply Forall_app. split; [assumption|].
      apply Forall_app. split; [assumption|]. constructor; [|constructor].
      split; [assumption | apply Hr; left; reflexivity].
    + intros x Hx. apply Hr. right. exact Hx.
  - (* flush of an open batch *)
    constructor; simpl; auto.
    unfold dispatched in *. simpl. rewrite map_app, List.concat_app. simpl.
    rewrite app_nil_r. apply Forall_app. split; assumption.
  - (* request *)
    constructor; simpl; auto.
    fold (setCode i t (k res) (logRequest i params res p)).
    rewrite dispatched_setCode by assumption. exact Hd.
  - (* send *)
    constructor; simpl; auto.
    fold (setCode i t k (setResults (results p ++ [r]) p)).
    rewrite dispatched_setCode by assumption. exact Hd.
Qed.

Lemma safeInv_reaches (c : settings) (l : listing) (p : process) :
  reaches c l p -> safeInv c l p.
Proof.
  intros Hr. pattern p. revert p Hr. apply reaches_ind.
  - apply safeInv_start.
  - intros e p p' _ IH He. eapply safeInv_step; eauto using exec_step.
Qed.

Lemma request_batch (c : settings) (l : listing) (p : process) (q : request) :
  reaches c l p -> In q (requests p) ->
  exists b, In b (dispatched p) /\ reqParams q = deleteParams (bucket c) b.
Proof.
  intros Hr Hq. destruct (req_task (reqInv_reaches Hr) q Hq) as (t & Hn & Hp & _).
  exists (objectVersions t). split; [|exact Hp].
  unfold dispatched. apply in_map. eapply nth_error_In; eauto.
Qed.

(** X3. Whatever the schedule and the answers of the storage service, a
    delete request only ever goes to the configured bucket and only names
    entries that the listing returned and whose key is the requested prefix
    followed by something (any key when the prefix is empty). *)
Theorem X3_requests_stay_in_scope (c : settings) (l : listing) (p : process)
        (q : request) (o : types.ObjectIdentifier) :
  reaches c l p -> In q (requests p) ->
  In o (types.Objects (s3.Delete (reqParams q))) ->
  s3.Bucket (reqParams q) = bucket c /\
  exists v, o = ObjectIdentifierOf v /\ In v (allEntries l) /\
            (prefix c = ""%string \/
             exists rest, Key v = String.append (prefix c) rest).
Proof.
  intros Hr Hq Ho. destruct (@request_batch c l p q Hr Hq) as (b & Hb & Hp).
  rewrite Hp in *. simpl in Ho. split; [reflexivity|].
  apply in_map_iff in Ho. destruct Ho as (v & <- & Hv). exists v.
  split; [reflexivity|].
  pose proof (safe_dispatched (safeInv_reaches Hr)) as Hd.
  rewrite Forall_forall in Hd.
  destruct (Hd v) as [Hs Hl]; [apply in_concat; exists b; auto|].
  split; [exact Hl | now apply inScope_iff].
Qed.

Lemma X3_witness :
  let q : request :=
    (1%nat, deleteParams "bkt" [ {| Key := "logs/b"; VersionId := "1" |} ], answerOk) in
  let o := {| types.Key := "logs/b"; types.VersionId := "1" |} in
  reaches logsSettings logsListing logsFinal /\
  In q (requests logsFinal) /\
  s3.Bucket (reqParams q) = bucket logsSettings /\
  exists v, o = ObjectIdentifierOf v /\ In v (allEntries logsListing) /\
            (prefix logsSettings = ""%string \/
             exists rest, Key v = String.append (prefix logsSettings) rest).
Proof.
  intros q o.
  assert (H : reaches logsSettings logsListing logsFinal)
    by (exists logsSchedule; vm_compute; reflexivity).
  assert (Hq : In q (requests logsFinal)) by (vm_compute; left; reflexivity).
  split; [exact H|]. split; [exact Hq|].
  apply (@X3_requests_stay_in_scope logsSettings logsListing logsFinal q o H Hq).
  vm_compute. left. reflexivity.
Defined.

(** ** The size of a delete request *)

Lemma dispatched_sizes_live (c : settings) (l : listing) (p : process) :
  reaches c l p -> exited p = None \/ flushed (pc p) = true ->
  Forall (fun b => 1 <= len b /\ (1 <= batchSize c -> len b <= batchSize c))
         (dispatched p) /\
  (flushed (pc p) = false -> 1 <= batchSize c ->
   Forall (fun b => len b = batchSize c) (dispatched p)).
Proof.
  intros Hr Hal. destruct (accInv_reaches Hr Hal) as [sealed Hi].
  destruct Hi as [Hd Hs _ Ho Hz _]. rewrite Hd. unfold finalBatch. split.
  - apply Forall_app. split.
    + destruct (Z.le_gt_cases 1 (batchSize c)) as [HC|HC].
      * eapply Forall_impl; [|exact Hs]. intros b Hb. simpl in Hb. lia.
      * rewrite Hz by lia. constructor.
    + destruct (flushed (pc p)); [|constructor].
      destruct (batch p) as [|v b] eqn:Hb; constructor; [|constructor].
      split; [unfold len; simpl; lia | intros HC; specialize (Ho HC); lia].
  - intros Hf HC. rewrite Hf, app_nil_r. exact Hs.
Qed.

Lemma dispatched_sizes (c : settings) (l : listing) (p : process) :
  reaches c l p ->
  Forall (fun b => 1 <= len b /\ (1 <= batchSize c -> len b <= batchSize c))
         (dispatched p) /\
  (flushed (pc p) = false -> 1 <= batchSize c ->
   Forall (fun b => len b = batchSize c) (dispatched p)).
Proof.
  intros Hr. destruct (exited p) as [st|] eqn:Hex;
    [|now apply (dispatched_sizes_live Hr); left].
  destruct (@last_step c l p Hr) as (q & e & Hq & Hal & Hs); [congruence|].
  destruct (@step_exit_same c e q p Hs Hal) as [Hg Hfl]; [congruence|].
  unfold dispatched. rewrite Hg, Hfl.
  apply (dispatched_sizes_live Hq). left. exact Hal.
Qed.

(** X4. No delete request is ever empty, and with a batch size of at least
    1 none names more entries than the batch size: with the default of 1000
    every request stays within what the storage service accepts. Every batch
    dispatched before the listing is exhausted is full. *)
Theorem X4_request_sizes (c : settings) (l : listing) (p : process) :
  reaches c l p ->
  (forall q, In q (requests p) ->
     1 <= len (types.Objects (s3.Delete (reqParams q))) /\
     (1 <= batchSize c ->
      len (types.Objects (s3.Delete (reqParams q))) <= batchSize c)) /\
  Forall (fun b => 1 <= len b /\ (1 <= batchSize c -> len b <= batchSize c))
         (dispatched p) /\
  (flushed (pc p) = false -> 1 <= batchSize c ->
   Forall (fun b => len b = batchSize c) (dispatched p)).
Proof.
  intros Hr. destruct (dispatched_sizes Hr) as [Hall Hfull].
  split; [|split; assumption].
  intros q Hq. destruct (@request_batch c l p q Hr Hq) as (b & Hb & Hp).
  rewrite Hp. simpl. rewrite len_map.
  rewrite Forall_forall in Hall. exact (Hall b Hb).
Qed.

Lemma X4_witness :
  reaches logsSettings logsListing logsFinal /\
  (forall q, In q (requests logsFinal) ->
     1 <= len (types.Objects (s3.Delete (reqParams q))) /\
     (1 <= batchSize logsSettings ->
      len (types.Objects (s3.Delete (reqParams q))) <= batchSize logsSettings)) /\
  Forall (fun b => 1 <= len b /\
                   (1 <= batchSize logsSettings -> len b <= batchSize logsSettings))
         (dispatched logsFinal) /\
  (flushed (pc logsFinal) = false -> 1 <= batchSize logsSettings ->
   Forall (fun b => len b = batchSize logsSettings) (dispatched logsFinal)).
Proof.
  assert (H : reaches logsSettings logsListing logsFinal)
    by (exists logsSchedule; vm_compute; reflexivity).
  split; [exact H|].
  exact (@X4_request_sizes logsSettings logsListing logsFinal H).
Defined.

(** ** A listing that fails *)

Lemma allEntries_app (l1 l2 : listing) :
  allEntries (l1 ++ l2) = allEntries l1 ++ allEntries l2.
Proof.
  induction l1 as [|[err|page] l1 IH]; simpl; [reflexivity | exact IH |].
  rewrite IH, app_assoc. reflexivity.
Qed.

Lemma remaining_split (x : mainPc) :
  remaining x = inPage x ++ allEntries (pagesAhead x).
Proof. destruct x; reflexivity. Qed.

(** Before the flush, the batches and the open batch hold the entries of
    the pages fetched so far, less those of the current page still to come. *)
Lemma consumed_live (c : settings) (l : listing) (p : process) :
  reaches c l p -> exited p = None -> flushed (pc p) = false ->
  exists pages,
    l = map inr pages ++ pagesAhead (pc p) /\
    List.concat (dispatched p) ++ batch p ++ inPage (pc p)
    = flat_map pageEntries pages.
Proof.
  intros Hr Hal Hf. destruct (pages_reaches Hr) as [pages Hp].
  exists pages. split; [exact Hp|].
  destruct (accInv_reaches Hr (or_introl Hal)) as [sealed Hi].
  pose proof (acc_entries Hi) as He. pose proof (acc_dispatched Hi) as Hd.
  unfold finalBatch in Hd. rewrite Hf, app_nil_r in Hd. rewrite Hd.
  rewrite remaining_split in He. rewrite Hp in He.
  rewrite allEntries_app, allEntries_pages in He.
  rewrite !app_assoc in He. apply app_inv_tail in He.
  rewrite <- He, <- !app_assoc. reflexivity.
Qed.

Lemma pages_before_failure (A B : Type) (xs ys : list B) (e : A)
      (ahead rest : list (A + B)) :
  map inr xs ++ ahead = map inr ys ++ inl e :: rest ->
  exists more, ys = xs ++ more.
Proof.
  revert ys. induction xs as [|x xs IH]; intros ys H.
  - exists ys. reflexivity.
  - destruct ys as [|y ys]; simpl in H; [discriminate|].
    injection H as <- H. destruct (IH ys H) as [more ->].
    exists more. reflexivity.
Qed.

(** X5. When a page of the listing fails, the run never gets to the final
    flush and never ends successfully; nothing of the failed page or of the
    pages after it is dispatched; and the main goroutine, once at the failed
    page, ends the process with the listing error without waiting for the
    goroutines it has started. *)
Theorem X5_listing_failure (c : settings) (pages : list s3.ListObjectVersionsOutput)
        (err : sdkError) (rest : listing) (p : process) :
  reaches c (map inr pages ++ inl err :: rest) p ->
  flushed (pc p) = false /\
  exited p <> Some ExitOk /\
  incl (List.concat (dispatched p)) (flat_map pageEntries pages) /\
  (exited p = None -> pc p = AtLoopHead (inl err :: rest) ->
   exec c Main p = Some (exit (ExitFatal (FailedToList err)) p) /\
   goroutines (exit (ExitFatal (FailedToList err)) p) = goroutines p /\
   waitGroup (exit (ExitFatal (FailedToList err)) p) = waitGroup p).
Proof.
  set (l := map inr pages ++ inl err :: rest). intros Hr.
  assert (Hf : forall q, reaches c l q -> flushed (pc q) = false).
  { intros q Hq. destruct (pages_reaches Hq) as [pages' Hp].
    destruct (flushed (pc q)) eqn:Hfl; [|reflexivity]. exfalso.
    assert (Hah : pagesAhead (pc q) = [])
      by (destruct (pc q); try discriminate; reflexivity).
    rewrite Hah, app_nil_r in Hp.
    assert (Hin : In (inl err) (map (@inr sdkError _) pages')).
    { rewrite <- Hp. unfold l. apply in_or_app. right. left. reflexivity. }
    apply in_map_iff in Hin. destruct Hin as (x & Hx & _). discriminate. }
  assert (Hlive : forall q, reaches c l q -> exited q = None ->
             incl (List.concat (dispatched q)) (flat_map pageEntries pages)).
  { intros q Hq Hal. destruct (consumed_live Hq Hal (Hf q Hq)) as (pages' & Hp & He).
    unfold l in Hp. symmetry in Hp.
    destruct (pages_before_failure _ _ _ _ _ Hp) as [more ->].
    rewrite flat_map_app, <- He. intros x Hx.
    apply in_or_app. left. apply in_or_app. left. exact Hx. }
  split; [exact (Hf p Hr)|]. split; [|split].
  - intros He. pose proof (exited_ok_pc Hr He) as Hpc.
    pose proof (Hf p Hr) as Hfl. rewrite Hpc in Hfl. discriminate.
  - destruct (exited p) as [st|] eqn:Hex; [|now apply Hlive].
    destruct (@last_step c l p Hr) as (q & e & Hq & Hal & Hs); [congruence|].
    destruct (@step_exit_same c e q p Hs Hal) as [Hg _]; [congruence|].
    unfold dispatched. rewrite Hg. now apply Hlive.
  - intros Hal Hpc. split; [|split; reflexivity].
    unfold exec. rewrite Hal. unfold mainStep. rewrite Hpc. reflexivity.
Qed.

(** ** Why a process ends *)

Lemma inScope_false (c : settings) (key : string) :
  inScope c key = false ->
  prefix c <> ""%string /\ strings.HasPrefix key (prefix c) = false.
Proof.
  unfold inScope. destruct (String.eqb_spec (prefix c) "") as [E|E];
    destruct (strings.HasPrefix key (prefix c)); simpl; try discriminate.
  intros _. split; [assumption | reflexivity].
Qed.

(** X6. A process only ends in one of four ways, each with its cause:
    successfully, after the flush and with the wait group at zero; with the
    listing error of a page that failed; with the scope error of a listed
    entry whose key does not start with the non-empty prefix; or with the
    error of a delete request that the storage service failed. It never
    panics: [waitGroup.Done()] is never called on a counter at zero. So
    when no page fails, every listed key is in scope and no delete request
    has failed, a process that has ended has ended successfully. *)
Theorem X6_exit_causes (c : settings) (l : listing) (p : process)
        (st : exitStatus) :
  reaches c l p -> exited p = Some st ->
  exitCause c l p st /\
  ((forall err, ~ In (inl err) l) ->
   (forall v, In v (allEntries l) -> inScope c (Key v) = true) ->
   (forall q err, In q (requests p) -> reqAnswer q <> inl err) ->
   st = ExitOk).
Proof.
  intros Hr Hex.
  assert (Hcause : exitCause c l p st); [|split; [exact Hcause|]].
  2:{ intros Hl Hsc Hrq. destruct st as [|f|]; [reflexivity | | contradiction].
      destruct f as [| |e|e|key|e]; simpl in Hcause; try contradiction.
      - exfalso. exact (Hl e Hcause).
      - exfalso. destruct Hcause as (Hne & Hhp & vid & Hin).
        specialize (Hsc _ Hin). simpl in Hsc. unfold inScope in Hsc.
        rewrite Hhp in Hsc. apply String.eqb_neq in Hne. rewrite Hne in Hsc.
        discriminate.
      - exfalso. destruct Hcause as (q & Hq & Ha). exact (Hrq q e Hq Ha). }
  destruct (@last_step c l p Hr) as (q & e & Hq & Hal & Hs); [congruence|].
  pose proof (countInv_reaches Hq) as Hcnt.
  destruct Hs; simpl in Hex; try congruence; injection Hex as <-; simpl.
  - (* listing failed *)
    destruct (pages_reaches Hq) as [pages Hp]. rewrite H in Hp. simpl in Hp.
    rewrite Hp. apply in_or_app. right. left. reflexivity.
  - (* out of scope *)
    destruct (inScope_false _ _ H0) as [Hne Hhp].
    split; [exact Hne|]. split; [exact Hhp|]. exists (VersionId v).
    rewrite objectVersion_eta.
    apply (safe_remaining (safeInv_reaches Hq)). rewrite H. left. reflexivity.
  - (* print *)
    rewrite H. split; [reflexivity|]. exact (cnt_printing Hcnt H).
  - (* a worker fails *)
    pose proof (@Forall_nth_error _ _ _ _ _ (cnt_shape Hcnt) H) as Ht.
    assert (Hf : exists err, f = FailedToDelete err).
    { destruct Ht as [E|x E|err E|E]; rewrite E in H0; try discriminate.
      injection H0 as <-. exists err. reflexivity. }
    destruct Hf as [err ->].
    destruct (reqInv_reaches Hq) as [_ Hb Hc].
    assert (Hin : In i (map reqIndex (requests p))).
    { apply (Hc i t H). unfold called. rewrite H0. reflexivity. }
    apply in_map_iff in Hin. destruct Hin as (q' & Hi & Hq').
    exists q'. split; [exact Hq'|].
    destruct (Hb q' Hq') as (t' & Hn & _ & Has). rewrite Hi, H in Hn.
    assert (t' = t) by congruence. subst t'.
    unfold answeredShape in Has. destruct (reqAnswer q') as [err'|result].
    + rewrite H0 in Has. injection Has as ->. reflexivity.
    + destruct Has as [E|E]; rewrite H0 in E; discriminate.
  - (* done at zero *)
    pose proof (cnt_wait Hcnt) as Hw. unfold aggPending in Hw. rewrite H in Hw.
    pose proof (sumZ_nonneg busy (goroutines p) busy_nonneg).
    pose proof (len_nonneg (results p)). lia.
Qed.

Lemma X5_witness :
  reaches logsSettings failListing failState /\
  flushed (pc failState) = false /\
  exited failState <> Some ExitOk /\
  incl (List.concat (dispatched failState)) (flat_map pageEntries failPages) /\
  (exited failState = None -> pc failState = AtLoopHead [inl "RequestTimeout"] ->
   exec logsSettings Main failState
   = Some (exit (ExitFatal (FailedToList "RequestTimeout")) failState) /\
   goroutines (exit (ExitFatal (FailedToList "RequestTimeout")) failState)
   = goroutines failState /\
   waitGroup (exit (ExitFatal (FailedToList "RequestTimeout")) failState)
   = waitGroup failState).
Proof.
  assert (H : reaches logsSettings failListing failState)
    by (exists [Main; Main; Main; Main; Main]; vm_compute; reflexivity).
  split; [exact H|].
  exact (@X5_listing_failure logsSettings failPages "RequestTimeout" [] failState H).
Defined.

Lemma X6_witness :
  reaches logsSettings strayListing strayExit /\
  exited strayExit = Some (ExitFatal (WithoutRequestedPrefix "c/d")) /\
  exitCause logsSettings strayListing strayExit
            (ExitFatal (WithoutRequestedPrefix "c/d")) /\
  ((forall err, ~ In (inl err) strayListing) ->
   (forall v, In v (allEntries strayListing) ->
              inScope logsSettings (Key v) = true) ->
   (forall q err, In q (requests strayExit) -> reqAnswer q <> inl err) ->
   ExitFatal (WithoutRequestedPrefix "c/d") = ExitOk).
Proof.
  assert (H : reaches logsSettings strayListing strayExit)
    by (exists [Main; Main; Main]; vm_compute; reflexivity).
  assert (He : exited strayExit = Some (ExitFatal (WithoutRequestedPrefix "c/d")))
    by (vm_compute; reflexivity).
  split; [exact H|]. split; [exact He|].
  exact (@X6_exit_causes logsSettings strayListing strayExit _ H He).
Defined.

(** ** What is printed *)











(** ** The wait group *)

Lemma busy_returned (gs : list task) :
  sumZ busy gs + sumZ returned gs = len gs.
Proof.
  induction gs as [|t gs IH]; [reflexivity|].
  simpl sumZ. unfold len in *. simpl length.
  unfold busy at 1, returned at 1. destruct (code t); lia.
Qed.

Lemma waitInv_start (l : listing) : waitInv (start l).
Proof. constructor; simpl; [reflexivity | discriminate]. Qed.

Lemma waitInv_step (c : settings) (e : event) (p p' : process) :
  countInv c p -> waitInv p -> step c e p p' -> waitInv p'.
Proof.
  intros Hcnt [Hr Hp] Hs.
  destruct Hs; try (constructor; simpl; assumption).
  - (* seal *)
    constructor; simpl; [|assumption].
    rewrite sumZ_app. simpl. rewrite Hr.
    unfold returned. simpl. lia.
  - (* flush of an open batch *)
    constructor; simpl; [|assumption].
    rewrite sumZ_app. simpl. rewrite Hr.
    unfold returned. simpl. lia.
  - (* request *)
    pose proof (@Forall_nth_error _ _ _ _ _ (cnt_shape Hcnt) H) as Ht.
    pose proof (shape_at_call Ht H0) as Hcall.
    rewrite Hcall, deleteObjectVersions_unfold in H0. injection H0 as _ <-.
    constructor; simpl; [|assumption].
    rewrite (@sumZ_setNth _ returned _ _ _ _ H), Hr.
    unfold returned. rewrite Hcall, deleteObjectVersions_unfold.
    destruct res; simpl; lia.
  - (* send *)
    pose proof (@Forall_nth_error _ _ _ _ _ (cnt_shape Hcnt) H) as Ht.
    destruct (shape_at_send Ht H0) as [-> _].
    constructor; simpl; [|assumption].
    rewrite (@sumZ_setNth _ returned _ _ _ _ H), Hr, len_app.
    unfold returned. rewrite H0. unfold len. simpl. lia.
  - (* receive *)
    constructor; simpl.
    + rewrite Hr, H0, len_app. unfold len. simpl. lia.
    + intros _. rewrite len_app. pose proof (len_nonneg (received p)).
      unfold len at 2. simpl. lia.
  - (* done *)
    constructor; simpl; [assumption | discriminate].
Qed.

Lemma waitInv_reaches (c : settings) (l : listing) (p : process) :
  reaches c l p -> waitInv p.
Proof.
  intros Hr. pattern p. revert p Hr. apply reaches_ind.
  - apply waitInv_start.
  - intros e p p' Hr IH He.
    eapply waitInv_step; eauto using exec_step, countInv_reaches.
Qed.

(** X8. The wait group counts the dispatched batches whose result the
    aggregator has not finished with: the batches dispatched, less the
    results received, plus one while the aggregator is between counting a
    result and calling [Done]. It is never negative and never above the
    number of dispatched batches, and it is zero exactly when every
    dispatched batch has had its result received and acknowledged. *)
Theorem X8_wait_group (c : settings) (l : listing) (p : process) :
  reaches c l p ->
  waitGroup p = len (dispatched p) - len (received p) + aggPending p /\
  0 <= waitGroup p <= len (dispatched p) /\
  (waitGroup p = 0 <->
   (len (received p) = len (dispatched p) /\ aggregator p = AggReceive)).
Proof.
  intros Hr. pose proof (cnt_wait (countInv_reaches Hr)) as Hw.
  destruct (waitInv_reaches Hr) as [Hret Hpend].
  pose proof (busy_returned (goroutines p)) as Hbr.
  pose proof (sumZ_nonneg busy (goroutines p) busy_nonneg) as Hb0.
  pose proof (len_nonneg (results p)) as Hl0.
  pose proof (len_nonneg (received p)) as Hr0.
  unfold dispatched. rewrite len_map. unfold aggPending in *.
  destruct (aggregator p) eqn:Ha.
  - split; [lia|]. split; [lia|]. split.
    + intros Hz. split; [lia | reflexivity].
    + intros [He _]. lia.
  - specialize (Hpend eq_refl). split; [lia|]. split; [lia|]. split.
    + intros Hz. lia.
    + intros [_ Hd]. discriminate.
Qed.

Lemma X8_witness :
  reaches logsSettings logsListing logsFinal /\
  waitGroup logsFinal
  = len (dispatched logsFinal) - len (received logsFinal) + aggPending logsFinal /\
  0 <= waitGroup logsFinal <= len (dispatched logsFinal) /\
  (waitGroup logsFinal = 0 <->
   (len (received logsFinal) = len (dispatched logsFinal) /\
    aggregator logsFinal = AggReceive)).
Proof.
  assert (H : reaches logsSettings logsListing logsFinal)
    by (exists logsSchedule; vm_compute; reflexivity).
  split; [exact H|].
  exact (@X8_wait_group logsSettings logsListing logsFinal H).
Defined.

(** ** Every run ends *)

Lemma workOf_app (gs1 gs2 : list task) :
  workOf (gs1 ++ gs2) = (workOf gs1 + workOf gs2)%nat.
Proof. unfold workOf. rewrite map_app, list_sum_app. reflexivity. Qed.

Lemma workOf_setNth (gs : list task) (i : nat) (x t : task) :
  nth_error gs i = Some t ->
  (workOf (setNth i x gs) + workLeft (code t)
   = workOf gs + workLeft (code x))%nat.
Proof.
  unfold workOf. revert i. induction gs as [|y gs IH]; intros [|i]; simpl;
    intros H; try discriminate.
  - injection H as ->. lia.
  - specialize (IH _ H). lia.
Qed.

Lemma pagesCost_eq (l : listing) :
  pagesCost l = (2 * length l + 5 * length (allEntries l))%nat.
Proof.
  induction l as [|[err|page] l IH]; simpl pagesCost; simpl length;
    simpl allEntries; rewrite ?length_app; lia.
Qed.

(** Every step out of a live state lowers the potential. *)
Lemma potential_step (c : settings) (e : event) (p p' : process) :
  countInv c p -> exited p = None -> step c e p p' ->
  (potential p' < potential p)%nat.
Proof.
  intros Hcnt Hal Hs. unfold potential at 2. rewrite Hal.
  destruct Hs; unfold potential; simpl; rewrite ?Hal;
    try rewrite H; simpl; try lia.
  - (* seal *)
    rewrite workOf_app. unfold workOf at 2. simpl. lia.
  - (* flush of an open batch *)
    rewrite workOf_app. unfold workOf at 2. simpl. lia.
  - (* request *)
    pose proof (@Forall_nth_error _ _ _ _ _ (cnt_shape Hcnt) H) as Ht.
    pose proof (shape_at_call Ht H0) as Hcall.
    pose proof (@workOf_setNth (goroutines p) i
                  {| objectVersions := objectVersions t; code := k res |} t H)
      as Hw.
    rewrite H0 in Hw. simpl in Hw.
    rewrite Hcall, deleteObjectVersions_unfold in H0. injection H0 as _ <-.
    destruct res; simpl in Hw; lia.
  - (* send *)
    pose proof (@Forall_nth_error _ _ _ _ _ (cnt_shape Hcnt) H) as Ht.
    destruct (shape_at_send Ht H0) as [-> _].
    pose proof (@workOf_setNth (goroutines p) i
                  {| objectVersions := objectVersions t; code := Return |} t H)
      as Hw.
    rewrite H0 in Hw. simpl in Hw. rewrite length_app. simpl. lia.
  - (* receive *)
    rewrite H0. simpl. lia.
Qed.

Lemma potential_run (c : settings) (l : listing) (es : list event) :
  forall p p', reaches c l p -> execAll c es p = Some p' ->
  (length es + potential p' <= potential p)%nat.
Proof.
  induction es as [|e es IH]; intros p p' Hr Hrun; simpl in Hrun.
  - injection Hrun as <-. simpl. lia.
  - destruct (exec c e p) as [p1|] eqn:H1; [|discriminate].
    pose proof (@potential_step c e p p1 (countInv_reaches Hr)
                  (exec_alive _ _ _ H1) (@exec_step _ _ _ _ H1)) as Hlt.
    specialize (IH p1 p' (@reaches_step _ _ _ _ _ Hr H1) Hrun). simpl. lia.
Qed.

(** X10. Every run is finite: on a listing of [P] pages with [N] entries
    in all, no schedule, whatever the storage service answers, makes the
    process take more than [5 * N + 2 * P + 8] steps. *)
Theorem X10_runs_are_bounded (c : settings) (l : listing) (es : list event)
        (p : process) :
  execAll c es (start l) = Some p ->
  (length es <= 5 * length (allEntries l) + 2 * length l + 8)%nat.
Proof.
  intros Hrun.
  pose proof (@potential_run c l es (start l) p (reaches_start c l) Hrun) as H.
  unfold potential at 2 in H. simpl in H. unfold workOf in H. simpl in H.
  rewrite pagesCost_eq in H. lia.
Qed.

Lemma X10_witness :
  execAll logsSettings logsSchedule (start logsListing) = Some logsFinal /\
  (length logsSchedule
   <= 5 * length (allEntries logsListing) + 2 * length logsListing + 8)%nat.
Proof.
  assert (H : execAll logsSettings logsSchedule (start logsListing) = Some logsFinal)
    by (vm_compute; reflexivity).
  split; [exact H|].
  exact (@X10_runs_are_bounded logsSettings logsListing logsSchedule logsFinal H).
Defined.

(** X9. The process never deadlocks and can always finish: from every
    reachable state that has not exited some goroutine can take a step (the
    main goroutine unless it waits for the wait group, and then a worker or
    the aggregator), and some continuation of the run ends the process. *)
Theorem X9_no_deadlock (c : settings) (l : listing) (p : process) :
  reaches c l p ->
  (exited p = None -> exists e p', exec c e p = Some p') /\
  exists es p', execAll c es p = Some p' /\ exited p' <> None.
Proof.
  intros Hr. split; [now apply live_can_step with (l := l)|].
  remember (potential p) as n eqn:Hn.
  revert p Hr Hn. induction n as [n IH] using lt_wf_ind. intros p Hr Hn.
  destruct (exited p) as [st|] eqn:Hex.
  - exists [], p. split; [reflexivity | congruence].
  - destruct (@live_can_step c l p Hr Hex) as (e & p1 & H1).
    pose proof (@potential_step c e p p1 (countInv_reaches Hr) Hex (@exec_step _ _ _ _ H1))
      as Hlt.
    destruct (IH (potential p1) ltac:(lia) p1 (@reaches_step _ _ _ _ _ Hr H1) eq_refl)
      as (es & p' & Hrun & Hdone).
    exists (e :: es), p'. split; [|exact Hdone]. simpl. rewrite H1. exact Hrun.
Qed.

Lemma X9_witness :
  reaches logsSettings strayListing strayState /\
  (exited strayState = None ->
   exists e p', exec logsSettings e strayState = Some p') /\
  exists es p', execAll logsSettings es strayState = Some p' /\ exited p' <> None.
Proof.
  assert (H : reaches logsSettings strayListing strayState)
    by (exists [Main; Main]; vm_compute; reflexivity).
  split; [exact H|].
  exact (@X9_no_deadlock logsSettings strayListing strayState H).
Defined.

(** ** Every listed entry is submitted once *)

(** X11. In a run that ends successfully, the (key, version id) pairs
    named by the delete requests, all requests together, are exactly the
    pairs of the listed entries, the versions and the delete markers of
    every page, each named as many times as the listing returned it: every
    version and delete marker listed is submitted for deletion once, and
    nothing else is; and every one of those requests went to the bucket with
    quiet reporting and was completed by the storage service. *)
Theorem X11_each_entry_submitted_once (c : settings) (l : listing) (p : process) :
  reaches c l p -> exited p = Some ExitOk ->
  exists pages,
    l = map inr pages /\
    Permutation
      (map pairOfId
           (flat_map (fun q => types.Objects (s3.Delete (reqParams q)))
                     (requests p)))
      (map pairOfVersion (listedInOrder pages)) /\
    (forall q, In q (requests p) ->
       s3.Bucket (reqParams q) = bucket c /\
       types.Quiet (s3.Delete (reqParams q)) = true /\
       exists result, reqAnswer q = inr result).
Proof.
  intros Hr Hex. pose proof (exited_ok_pc Hr Hex) as Hpc.
  destruct (pages_reaches Hr) as [pages Hpg].
  rewrite Hpc in Hpg. simpl in Hpg. rewrite app_nil_r in Hpg.
  exists pages. split; [exact Hpg|]. split.
  - rewrite <- allEntries_listed, <- Hpg, <- pairs_of_identifiers.
    apply Permutation_map. exact (requestObjects_at_print Hr Hpc).
  - intros q Hq.
    destruct (proj2 (requests_at_print Hr Hpc) q Hq) as (b & result & _ & Hp & Ha).
    rewrite Hp. simpl. split; [reflexivity|]. split; [reflexivity|].
    exists result. exact Ha.
Qed.

Lemma X11_witness :
  reaches logsSettings markerListing markerFinal /\
  exited markerFinal = Some ExitOk /\
  map pairOfId
      (flat_map (fun q => types.Objects (s3.Delete (reqParams q)))
                (requests markerFinal))
  = [ ("logs/c", "9"); ("logs/a", "1"); ("logs/a", "2");
      ("logs/a", "3"); ("logs/b", "1") ]%string /\
  exists pages,
    markerListing = map inr pages /\
    Permutation
      (map pairOfId
           (flat_map (fun q => types.Objects (s3.Delete (reqParams q)))
                     (requests markerFinal)))
      (map pairOfVersion (listedInOrder pages)) /\
    (forall q, In q (requests markerFinal) ->
       s3.Bucket (reqParams q) = bucket logsSettings /\
       types.Quiet (s3.Delete (reqParams q)) = true /\
       exists result, reqAnswer q = inr result).
Proof.
  assert (H : reaches logsSettings markerListing markerFinal)
    by (exists markerSchedule; vm_compute; reflexivity).
  assert (He : exited markerFinal = Some ExitOk) by (vm_compute; reflexivity).
  split; [exact H|]. split; [exact He|]. split; [vm_compute; reflexivity|].
  exact (@X11_each_entry_submitted_once logsSettings markerListing markerFinal H He).
Defined.

(** ** The two counters while the process runs *)

Lemma sumZ_BatchSize_bound (c : settings) (l : listing) (p : process) :
  reaches c l p ->
  0 <= sumZ BatchSize (received p) <= len (List.concat (dispatched p)).
Proof.
  intros Hr. pose proof (countInv_reaches Hr) as Hc.
  pose proof (cnt_sizes Hc) as Hs. pose proof (cnt_shape Hc) as Hsh.
  assert (Hps : 0 <= sumZ pendingSize (goroutines p)).
  { apply sumZ_nonneg. intros t. unfold pendingSize.
    destruct (code t); try apply len_nonneg; lia. }
  assert (Hrs : forall rs : list deleteBatchResult,
             Forall (fun r => 0 <= BatchSize r) rs -> 0 <= sumZ BatchSize rs).
  { induction 1; simpl; lia. }
  pose proof (wayInv_reaches Hr) as Hw.
  assert (Hpos : Forall (fun r => 0 <= BatchSize r) (onTheWay p)).
  { rewrite Forall_forall. intros r Hin.
    apply (Permutation_in _ Hw) in Hin. apply in_flat_map in Hin.
    destruct Hin as (q & _ & Hin). unfold answered in Hin.
    destruct (reqAnswer q); [destruct Hin|].
    destruct Hin as [<-|[]]. simpl. apply len_nonneg. }
  unfold onTheWay in Hpos. apply Forall_app in Hpos. destruct Hpos as [H1 H2].
  apply Forall_app in H2. destruct H2 as [H2 _].
  pose proof (Hrs _ H1). pose proof (Hrs _ H2).
  rewrite <- sumZ_len_concat. unfold dispatched. rewrite sumZ_map. lia.
Qed.

(** X12. While the process runs, and at its successful end, the sizes of
    the results the aggregator has counted never add up to more than the
    entries the main goroutine has counted, which are never more than the
    entries listed. When the listing has no more than [MaxInt] entries the
    two counters hold these numbers exactly, so a progress line never shows
    more objects than have been listed. *)
Theorem X12_counters (c : settings) (l : listing) (p : process) :
  reaches c l p -> exited p = None \/ flushed (pc p) = true ->
  exists seen,
    0 <= sumZ BatchSize (received p) <= seen /\
    seen <= len (allEntries l) /\
    (flushed (pc p) = true -> seen = len (allEntries l)) /\
    numObjects p = wrapInt seen /\
    numProcessed p = wrapInt (sumZ BatchSize (received p)) /\
    (len (allEntries l) <= MaxInt ->
     numObjects p = seen /\ 0 <= numProcessed p <= numObjects p).
Proof.
  intros Hr Hal. destruct (accInv_reaches Hr Hal) as [sealed Hi].
  destruct Hi as [Hd _ He _ _ Hc].
  pose proof (sumZ_BatchSize_bound Hr) as Hb.
  pose proof (cnt_processed (countInv_reaches Hr)) as Hp.
  exists (len (List.concat sealed ++ batch p)).
  assert (Hdc : len (List.concat (dispatched p))
                <= len (List.concat sealed ++ batch p)).
  { rewrite Hd, List.concat_app, !len_app. unfold finalBatch.
    destruct (flushed (pc p)); [|unfold len; simpl; lia].
    destruct (batch p) as [|v b]; cbn [List.concat]; rewrite ?app_nil_r; lia. }
  assert (Hseen : len (List.concat sealed ++ batch p) <= len (allEntries l)).
  { rewrite <- He, !len_app. pose proof (len_nonneg (remaining (pc p))). lia. }
  split; [lia|]. split; [exact Hseen|]. split; [|split; [exact Hc|split; [exact Hp|]]].
  - intros Hf. rewrite <- He, (flushed_remaining _ Hf), app_nil_r. reflexivity.
  - intros HN.
    pose proof (len_nonneg (List.concat sealed ++ batch p)) as H0.
    assert (Hmin : MinInt <= 0) by (unfold MinInt, intBits; simpl; lia).
    rewrite Hc, Hp, !wrapInt_small by lia. lia.
Qed.

Lemma X12_witness :
  reaches logsSettings logsListing logsFinal /\
  exists seen,
    0 <= sumZ BatchSize (received logsFinal) <= seen /\
    seen <= len (allEntries logsListing) /\
    (flushed (pc logsFinal) = true -> seen = len (allEntries logsListing)) /\
    numObjects logsFinal = wrapInt seen /\
    numProcessed logsFinal = wrapInt (sumZ BatchSize (received logsFinal)) /\
    (len (allEntries logsListing) <= MaxInt ->
     numObjects logsFinal = seen /\
     0 <= numProcessed logsFinal <= numObjects logsFinal).
Proof.
  assert (H : reaches logsSettings logsListing logsFinal)
    by (exists logsSchedule; vm_compute; reflexivity).
  split; [exact H|].
  apply (@X12_counters logsSettings logsListing logsFinal H).
  right. vm_compute. reflexivity.
Defined.
